(** * peer2peer-cache: a shallow embedding of the core data structures

    The development follows the Go packages of the repository:
    - [consistenthash]: the hash ring ([Map], [New], [Add], [Get], [IsEmpty]);
    - [lru]: the bounded cache ([LruCache], [Add], [Get], [Remove],
      [RemoveOldest], [Len], [Clear]);
    - [p2pcache]: [ByteView], the five [Sink] implementations and the
      registration of the peer picker.

    Conventions.  Go's [int] is taken to be 64 bits wide, and is modelled by
    [Z]; a [[]byte] is a [list byte], with [None] for the nil slice where the
    code tests for nil; a Go [string] is a [string] (a sequence of bytes).
    A run-time panic (index out of range, nil dereference, an explicit
    [panic]) is the outcome [Panic]. *)

From Stdlib Require Import ZArith String Ascii List Lia DecimalString.
From Stdlib.Strings Require Import Byte.
From stdpp Require Import gmap strings list sorting.

#[local] Set Warnings "-clear-no-such-hyp".
Local Open Scope Z_scope.

(** ** Outcomes: a Go call either returns or panics *)

Inductive outcome (A : Type) : Type :=
| Ok (a : A)
| Panic.
Arguments Ok {A} a.
Arguments Panic {A}.

#[global] Instance outcome_ret : MRet outcome := fun A a => Ok a.
#[global] Instance outcome_bind : MBind outcome := fun A B f m =>
  match m with
  | Ok a => f a
  | Panic => Panic
  end.

(** [l[i]] on a slice: panics when [i] is out of range. *)
Definition index {A : Type} (l : list A) (i : Z) : outcome A :=
  if i <? 0 then Panic
  else match l !! Z.to_nat i with
       | Some x => Ok x
       | None => Panic
       end.

(** [len(l)] as a Go [int]. *)
Definition len {A : Type} (l : list A) : Z := Z.of_nat (length l).

(** ** Standard-library functions used by package [consistenthash] *)

Module gostd.

(** [hash/crc32.ChecksumIEEE]: the reflected CRC-32 with polynomial
    [0xedb88320], computed bit by bit. *)
Definition IEEE : Z := 0xedb88320.

Definition crc32_shift (crc : Z) : Z :=
  if Z.testbit crc 0 then Z.lxor (Z.shiftr crc 1) IEEE else Z.shiftr crc 1.

Definition crc32_update (crc : Z) (b : byte) : Z :=
  Nat.iter 8 crc32_shift (Z.lxor crc (Z.of_N (Byte.to_N b))).

Definition ChecksumIEEE (data : list byte) : Z :=
  Z.lxor (fold_left crc32_update data 0xffffffff) 0xffffffff.

(** [strconv.Itoa]: the decimal representation of an [int]. *)
Definition Itoa (i : Z) : string := NilZero.string_of_int (Z.to_int i).

(** [sort.Ints]: sorts in increasing order.  The sorted permutation of a list
    of integers is unique ([sort_Ints_unique] below), so the particular
    algorithm does not matter. *)
Definition sort_Ints (l : list Z) : list Z := merge_sort Z.le l.

(** [sort.Search(n, f)]:
<<
    i, j := 0, n
    for i < j {
        h := int(uint(i+j) >> 1)
        if !f(h) { i = h + 1 } else { j = h }
    }
    return i
>>
    Every iteration shrinks [j - i], so [j - i] iterations are enough: the
    loop is unrolled [fuel] times and [Search] supplies [n].  The predicate
    may panic (it indexes a slice). *)
Fixpoint search_loop (fuel : nat) (f : Z → outcome bool) (i j : Z) : outcome Z :=
  if i <? j then
    match fuel with
    | O => Ok i
    | S fuel' =>
        let h := Z.shiftr (i + j) 1 in
        b ← f h;
        if negb b then search_loop fuel' f (h + 1) j
        else search_loop fuel' f i h
    end
  else Ok i.

Definition Search (n : Z) (f : Z → outcome bool) : outcome Z :=
  search_loop (Z.to_nat n) f 0 n.

End gostd.

(** ** Package [consistenthash] *)

Module consistenthash.
Import gostd.

(** [type Hash func(data []byte) uint32].  A call of a [Hash] yields a
    [uint32]: [call_hash] reduces the value modulo [2^32]. *)
Definition Hash : Type := list byte → Z.

Definition uint32 (x : Z) : Z := x mod 2 ^ 32.

Record Map : Type := mkMap {
  hash : Hash;
  replicas : Z;
  keys : list Z; (* sorted *)
  hashMap : gmap Z string
}.

(** [m.hash(data)], converted to [int] (the identity on a 64-bit [int]). *)
Definition call_hash (m : Map) (data : list byte) : Z := uint32 (hash m data).

Definition New (replicas : Z) (hashFn : option Hash) : Map :=
  {| hash := match hashFn with
             | Some h => h
             | None => ChecksumIEEE
             end;
     replicas := replicas;
     keys := [];
     hashMap := ∅ |}.

(** The body of the inner loop of [Add], for peer [key] and replica [i]. *)
Definition add_replica (key : string) (m : Map) (i : Z) : Map :=
  let hash := call_hash m (list_byte_of_string (Itoa i ++ key)) in
  {| hash := m.(consistenthash.hash);
     replicas := m.(replicas);
     keys := m.(keys) ++ [hash];
     hashMap := <[hash := key]> m.(hashMap) |}.

(** [for i := 0; i < m.replicas; i++ { ... }] *)
Definition add_key (m : Map) (key : string) : Map :=
  fold_left (add_replica key) (seqZ 0 m.(replicas)) m.

Definition Add (m : Map) (keys : list string) : Map :=
  let m' := fold_left add_key keys m in
  {| hash := m'.(hash);
     replicas := m'.(replicas);
     keys := sort_Ints m'.(consistenthash.keys);
     hashMap := m'.(hashMap) |}.

Definition IsEmpty (m : Map) : bool := len m.(keys) =? 0.

(** [m.hashMap[k]]: a missing key reads as the empty string. *)
Definition hashMap_at (m : Map) (k : Z) : string := default ""%string (m.(hashMap) !! k).

Definition Get (m : Map) (key : string) : outcome string :=
  if IsEmpty m then Ok ""%string
  else
    let hash := call_hash m (list_byte_of_string key) in
    idx ← Search (len m.(keys)) (fun i => k ← index m.(keys) i; Ok (k >=? hash));
    (* means we cycled back to the first replica *)
    let idx := if idx =? len m.(keys) then 0 else idx in
    k ← index m.(keys) idx;
    Ok (hashMap_at m k).

(** A ring as the program builds it: [New], then any number of [Add] calls. *)
Definition ring (replicas : Z) (hashFn : option Hash) (adds : list (list string)) : Map :=
  fold_left Add adds (New replicas hashFn).

(** The hash of the [i]-th virtual node of [peer]. *)
Definition node_hash (m : Map) (i : Z) (peer : string) : Z :=
  call_hash m (list_byte_of_string (Itoa i ++ peer)).

(** [owner ks h hv]: on the circle of stored hashes [ks], [hv] is the first
    one at or after [h]: the smallest stored hash that is at least [h], or,
    when [h] is larger than every stored hash, the smallest stored hash. *)
Definition owner (ks : list Z) (h hv : Z) : Prop :=
  hv ∈ ks ∧
  ((h ≤ hv ∧ ∀ x, x ∈ ks → h ≤ x → hv ≤ x) ∨
   ((∀ x, x ∈ ks → x < h) ∧ ∀ x, x ∈ ks → hv ≤ x)).

(** No two distinct peers of [P] have virtual nodes with the same hash. *)
Definition collision_free (m : Map) (P : list string) : Prop :=
  ∀ p q i j, p ∈ P → q ∈ P → 0 ≤ i < replicas m → 0 ≤ j < replicas m →
             node_hash m i p = node_hash m j q → p = q.

(** The hashes that [Add] appends for the peers [ps]: for each peer, in
    order, those of its replicas [0 .. replicas-1]. *)
Definition node_hashes (m : Map) (ps : list string) : list Z :=
  ps ≫= (fun p => (fun i => node_hash m i p) <$> seqZ 0 m.(replicas)).

(** Two peer addresses whose first virtual nodes have the same CRC-32. *)
Definition peer_a : string := "http://10.3.199.89:8080".
Definition peer_b : string := "http://10.11.212.202:8080".

End consistenthash.

(** ** Package [p2pcache]: [ByteView] and the sinks *)

Module p2pcache.

(** A [[]byte]: [None] is the nil slice, [Some l] a slice with contents [l]. *)
Definition slice : Type := option (list byte).

Definition data (p : slice) : list byte := default [] p.

(** [cloneBytes]: [make([]byte, len(b))] followed by [copy]; never nil. *)
Definition cloneBytes (p : slice) : slice := Some (data p).

(** The built-in [copy(dst, src)]: copies [min(len(dst), len(src))] bytes to
    the front of [dst] and returns that number. *)
Definition copy (dst : slice) (src : list byte) : Z * slice :=
  let n := Z.min (len (data dst)) (len src) in
  (n, (fun d => take (Z.to_nat n) src ++ drop (Z.to_nat n) d) <$> dst).

(** [l[from:]]: panics unless [0 <= from <= len(l)]. *)
Definition slice_from (l : list byte) (from : Z) : outcome (list byte) :=
  if (from <? 0) || (len l <? from) then Panic else Ok (drop (Z.to_nat from) l).

(** A store [*p = x] through a pointer: [None] is the nil pointer, [Some y]
    a pointer to a cell that holds [y]. *)
Definition store {A : Type} (p : option A) (x : A) : outcome (option A) :=
  match p with
  | Some _ => Ok (Some x)
  | None => Panic
  end.

(** A load [*p]. *)
Definition load {A : Type} (p : option A) : outcome A :=
  match p with
  | Some y => Ok y
  | None => Panic
  end.

Inductive error : Type :=
| errors_New (msg : string)   (* errors.New(msg) *)
| EOF                         (* io.EOF *)
| proto_error (msg : string). (* an error of the proto library *)

(** The part of [google.golang.org/protobuf/proto] that the sinks call:
    [Marshal(m)] returns the encoding or an error; [Unmarshal(b, dst)]
    decodes into [dst], returns an error, or panics. *)
Class Proto : Type := {
  Message : Type;
  Marshal : Message → slice * option error;
  Unmarshal : list byte → Message → outcome (Message * option error)
}.

(** *** byteview.go *)

Record ByteView : Type := mkByteView {
  b : slice; (* b is used if non-nil, else s is used. *)
  s : string
}.

(** The zero value of [ByteView]. *)
Definition ByteView_zero : ByteView := {| b := None; s := "" |}.

(** Copy copies v data into dst and returns the number of bytes copied. *)
Definition Copy (v : ByteView) (dst : slice) : Z * slice :=
  match v.(b) with
  | Some p => copy dst p
  | None => copy dst (list_byte_of_string v.(s))
  end.

(** ByteSlice returns a copy of data as a byte slice. *)
Definition ByteSlice (v : ByteView) : slice :=
  match v.(b) with
  | Some p => cloneBytes (Some p)
  | None => Some (list_byte_of_string v.(s))
  end.

(** SliceFrom slices the view from the provided index until the end. *)
Definition SliceFrom (v : ByteView) (from : Z) : outcome ByteView :=
  match v.(b) with
  | Some p => p' ← slice_from p from; Ok {| b := Some p'; s := "" |}
  | None =>
      p' ← slice_from (list_byte_of_string v.(s)) from;
      Ok {| b := None; s := string_of_list_byte p' |}
  end.

(** String returns the data as a string, making a copy if necessary. *)
Definition String (v : ByteView) : string :=
  match v.(b) with
  | Some p => string_of_list_byte p
  | None => v.(s)
  end.

(** Len returns the view's length. *)
Definition Len (v : ByteView) : Z :=
  match v.(b) with
  | Some p => len p
  | None => len (list_byte_of_string v.(s))
  end.

(** ReadAt implements io.ReaderAt on the bytes in v.  The result is
    [(n, err)] and the buffer [p] after the call. *)
Definition ReadAt (v : ByteView) (p : slice) (off : Z) : outcome (Z * option error * slice) :=
  if off <? 0 then Ok (0, Some (errors_New "byteview: invalid offset"), p)
  else if off >=? len (data p) then Ok (0, Some EOF, p)
  else
    v' ← SliceFrom v off;
    let '(n, p') := Copy v' p in
    Ok (n, if n <? len (data p) then Some EOF else None, p').

(** The bytes a view stands for. *)
Definition content (v : ByteView) : list byte := data (ByteSlice v).

(** At returns the byte at index i. *)
Definition At (v : ByteView) (i : Z) : outcome byte :=
  match v.(b) with
  | Some p => index p i
  | None => index (list_byte_of_string v.(s)) i
  end.

(** [for i, x := range l { if !f(i, x) { return false } }; return true],
    with [i] counting from [i0]. *)
Fixpoint range_all {A : Type} (f : Z → A → outcome bool) (i0 : Z) (l : list A) :
    outcome bool :=
  match l with
  | [] => Ok true
  | x :: l' => ok ← f i0 x; if ok : bool then range_all f (i0 + 1) l' else Ok false
  end.

(** EqualString returns whether the bytes in v are the same as the bytes in s. *)
Definition EqualString (v : ByteView) (str : string) : outcome bool :=
  match v.(b) with
  | None => Ok (String.eqb v.(s) str)
  | Some p =>
      if negb (Len v =? len (list_byte_of_string str)) then Ok false
      else range_all (fun i x => c ← index (list_byte_of_string str) i;
                                 Ok (Byte.eqb x c)) 0 p
  end.

(** [bytes.Equal(a, b)], which is [string(a) == string(b)]: a nil slice
    equals an empty one. *)
Definition bytes_Equal (a c : slice) : bool :=
  String.eqb (string_of_list_byte (data a)) (string_of_list_byte (data c)).

(** EqualBytes returns whether the bytes in v are the same as the bytes in p. *)
Definition EqualBytes (v : ByteView) (p : slice) : outcome bool :=
  match v.(b) with
  | Some q => Ok (bytes_Equal (Some q) p)
  | None =>
      if negb (Len v =? len (data p)) then Ok false
      else range_all (fun i x => c ← index (list_byte_of_string v.(s)) i;
                                 Ok (Byte.eqb c x)) 0 (data p)
  end.

(** Equal returns whether the bytes in v are the same as the bytes in bv2. *)
Definition Equal (v bv2 : ByteView) : outcome bool :=
  match bv2.(b) with
  | None => EqualString v bv2.(s)
  | Some p => EqualBytes v (Some p)
  end.

(** *** The sinks *)

Module stringSink.
Record t : Type := mk { str : option string; v : ByteView }.

Definition SetProto `{Proto} (sk : t) (m : Message) : outcome (option error * t) :=
  let '(p, err) := Marshal m in
  match err with
  | Some e => Ok (Some e, sk)
  | None =>
      let v' := {| b := p; s := sk.(v).(s) |} in
      str' ← store sk.(str) (string_of_list_byte (data p));
      Ok (None, {| str := str'; v := v' |})
  end.

Definition SetString (sk : t) (x : string) : outcome (option error * t) :=
  let v' := {| b := None; s := x |} in
  str' ← store sk.(str) x;
  Ok (None, {| str := str'; v := v' |}).

Definition SetBytes (sk : t) (p : slice) : outcome (option error * t) :=
  SetString sk (string_of_list_byte (data p)).

Definition view (sk : t) : outcome (ByteView * option error) := Ok (sk.(v), None).
End stringSink.

(** StringSink returns a Sink that populates the provided string pointer. *)
Definition StringSink (str : option string) : stringSink.t :=
  {| stringSink.str := str; stringSink.v := ByteView_zero |}.

Module byteViewSink.
Record t : Type := mk { dst : option ByteView }.

Definition SetProto `{Proto} (sk : t) (m : Message) : outcome (option error * t) :=
  let '(p, err) := Marshal m in
  match err with
  | Some e => Ok (Some e, sk)
  | None =>
      dst' ← store sk.(dst) {| b := p; s := "" |};
      Ok (None, {| dst := dst' |})
  end.

Definition setView (sk : t) (x : ByteView) : outcome (option error * t) :=
  dst' ← store sk.(dst) x;
  Ok (None, {| dst := dst' |}).

Definition view (sk : t) : outcome (ByteView * option error) :=
  x ← load sk.(dst); Ok (x, None).

Definition SetBytes (sk : t) (p : slice) : outcome (option error * t) :=
  dst' ← store sk.(dst) {| b := cloneBytes p; s := "" |};
  Ok (None, {| dst := dst' |}).

Definition SetString (sk : t) (x : string) : outcome (option error * t) :=
  dst' ← store sk.(dst) {| b := None; s := x |};
  Ok (None, {| dst := dst' |}).
End byteViewSink.

(** ByteViewSink returns a Sink that populates a ByteView. *)
Definition ByteViewSink (dst : option ByteView) : outcome byteViewSink.t :=
  match dst with
  | None => Panic (* panic("nil dst") *)
  | Some _ => Ok {| byteViewSink.dst := dst |}
  end.

Module protoSink.
Record t `{Proto} : Type := mk {
  dst : Message; (* authoritative value *)
  typ : string;
  v : ByteView (* encoded *)
}.

Definition SetProto `{Proto} (sk : t) (m : Message) : outcome (option error * t) :=
  let '(p, err) := Marshal m in
  match err with
  | Some e => Ok (Some e, sk)
  | None =>
      '(dst', err) ← Unmarshal (data p) sk.(dst);
      match err with
      | Some e => Ok (Some e, {| dst := dst'; typ := sk.(typ); v := sk.(v) |})
      | None => Ok (None, {| dst := dst'; typ := sk.(typ); v := {| b := p; s := "" |} |})
      end
  end.

Definition view `{Proto} (sk : t) : outcome (ByteView * option error) := Ok (sk.(v), None).

Definition SetBytes `{Proto} (sk : t) (p : slice) : outcome (option error * t) :=
  '(dst', err) ← Unmarshal (data p) sk.(dst);
  match err with
  | Some e => Ok (Some e, {| dst := dst'; typ := sk.(typ); v := sk.(v) |})
  | None => Ok (None, {| dst := dst'; typ := sk.(typ); v := {| b := cloneBytes p; s := "" |} |})
  end.

Definition SetString `{Proto} (sk : t) (x : string) : outcome (option error * t) :=
  let p := Some (list_byte_of_string x) in
  '(dst', err) ← Unmarshal (data p) sk.(dst);
  match err with
  | Some e => Ok (Some e, {| dst := dst'; typ := sk.(typ); v := sk.(v) |})
  | None => Ok (None, {| dst := dst'; typ := sk.(typ); v := {| b := p; s := "" |} |})
  end.
End protoSink.

(** ProtoSink returns a Sink that unmarshals binary proto values into m. *)
Definition ProtoSink `{Proto} (m : Message) : protoSink.t :=
  {| protoSink.dst := m; protoSink.typ := ""; protoSink.v := ByteView_zero |}.

Module allocBytesSink.
Record t : Type := mk { dst : option slice; v : ByteView }.

Definition nil_dst : error := errors_New "nil AllocatingByteSliceSink *[]byte dst".

Definition setBytesOwned (sk : t) (p : slice) : outcome (option error * t) :=
  match sk.(dst) with
  | None => Ok (Some nil_dst, sk)
  | Some _ =>
      (* another copy, protecting the read-only sk.v.b view *)
      Ok (None, {| dst := Some (cloneBytes p); v := {| b := p; s := "" |} |})
  end.

Definition SetProto `{Proto} (sk : t) (m : Message) : outcome (option error * t) :=
  let '(p, err) := Marshal m in
  match err with
  | Some e => Ok (Some e, sk)
  | None => setBytesOwned sk p
  end.

Definition view (sk : t) : outcome (ByteView * option error) := Ok (sk.(v), None).

Definition setView (sk : t) (x : ByteView) : outcome (option error * t) :=
  dst' ← store sk.(dst) (match x.(b) with
                         | Some p => cloneBytes (Some p)
                         | None => Some (list_byte_of_string x.(s))
                         end);
  Ok (None, {| dst := dst'; v := x |}).

Definition SetBytes (sk : t) (p : slice) : outcome (option error * t) :=
  setBytesOwned sk (cloneBytes p).

Definition SetString (sk : t) (x : string) : outcome (option error * t) :=
  match sk.(dst) with
  | None => Ok (Some nil_dst, sk)
  | Some _ =>
      Ok (None, {| dst := Some (Some (list_byte_of_string x)); v := {| b := None; s := x |} |})
  end.
End allocBytesSink.

(** AllocatingByteSliceSink returns a Sink that allocates a byte slice to
    hold the received value and assigns it to the destination. *)
Definition AllocatingByteSliceSink (dst : option slice) : allocBytesSink.t :=
  {| allocBytesSink.dst := dst; allocBytesSink.v := ByteView_zero |}.

Module truncBytesSink.
Record t : Type := mk { dst : option slice; v : ByteView }.

Definition nil_dst : error := errors_New "nil TruncatingByteSliceSink *[]byte dst".

(** With [d] the slice that [sk.dst] points to:
    [n := copy(d, src); if n < len(d) { d = d[:n] }]. *)
Definition copy_and_shrink (d : slice) (src : list byte) : slice :=
  let '(n, d') := copy d src in
  if n <? len (data d') then take (Z.to_nat n) <$> d' else d'.

Definition setBytesOwned (sk : t) (p : slice) : outcome (option error * t) :=
  match sk.(dst) with
  | None => Ok (Some nil_dst, sk)
  | Some d =>
      Ok (None, {| dst := Some (copy_and_shrink d (data p)); v := {| b := p; s := "" |} |})
  end.

Definition SetProto `{Proto} (sk : t) (m : Message) : outcome (option error * t) :=
  let '(p, err) := Marshal m in
  match err with
  | Some e => Ok (Some e, sk)
  | None => setBytesOwned sk p
  end.

Definition view (sk : t) : outcome (ByteView * option error) := Ok (sk.(v), None).

Definition SetBytes (sk : t) (p : slice) : outcome (option error * t) :=
  setBytesOwned sk (cloneBytes p).

Definition SetString (sk : t) (x : string) : outcome (option error * t) :=
  match sk.(dst) with
  | None => Ok (Some nil_dst, sk)
  | Some d =>
      Ok (None, {| dst := Some (copy_and_shrink d (list_byte_of_string x));
                   v := {| b := None; s := x |} |})
  end.
End truncBytesSink.

(** TruncatingByteSliceSink returns a Sink that writes up to as many bytes
    as the destination slice is long. *)
Definition TruncatingByteSliceSink (dst : option slice) : truncBytesSink.t :=
  {| truncBytesSink.dst := dst; truncBytesSink.v := ByteView_zero |}.

(** *** The [Sink] interface, over its five implementations *)

Inductive Sink `{Proto} : Type :=
| stringSink_ (sk : stringSink.t)
| byteViewSink_ (sk : byteViewSink.t)
| protoSink_ (sk : protoSink.t)
| allocBytesSink_ (sk : allocBytesSink.t)
| truncBytesSink_ (sk : truncBytesSink.t).

(** Wraps the receiver returned by a method back into the interface. *)
Definition as_sink {T S : Type} (inj : T → S) (r : outcome (option error * T)) :
    outcome (option error * S) :=
  '(err, sk) ← r; Ok (err, inj sk).

Definition SetProto `{Proto} (sink : Sink) (m : Message) : outcome (option error * Sink) :=
  match sink with
  | stringSink_ sk => as_sink stringSink_ (stringSink.SetProto sk m)
  | byteViewSink_ sk => as_sink byteViewSink_ (byteViewSink.SetProto sk m)
  | protoSink_ sk => as_sink protoSink_ (protoSink.SetProto sk m)
  | allocBytesSink_ sk => as_sink allocBytesSink_ (allocBytesSink.SetProto sk m)
  | truncBytesSink_ sk => as_sink truncBytesSink_ (truncBytesSink.SetProto sk m)
  end.

Definition SetBytes `{Proto} (sink : Sink) (p : slice) : outcome (option error * Sink) :=
  match sink with
  | stringSink_ sk => as_sink stringSink_ (stringSink.SetBytes sk p)
  | byteViewSink_ sk => as_sink byteViewSink_ (byteViewSink.SetBytes sk p)
  | protoSink_ sk => as_sink protoSink_ (protoSink.SetBytes sk p)
  | allocBytesSink_ sk => as_sink allocBytesSink_ (allocBytesSink.SetBytes sk p)
  | truncBytesSink_ sk => as_sink truncBytesSink_ (truncBytesSink.SetBytes sk p)
  end.

Definition SetString `{Proto} (sink : Sink) (x : string) : outcome (option error * Sink) :=
  match sink with
  | stringSink_ sk => as_sink stringSink_ (stringSink.SetString sk x)
  | byteViewSink_ sk => as_sink byteViewSink_ (byteViewSink.SetString sk x)
  | protoSink_ sk => as_sink protoSink_ (protoSink.SetString sk x)
  | allocBytesSink_ sk => as_sink allocBytesSink_ (allocBytesSink.SetString sk x)
  | truncBytesSink_ sk => as_sink truncBytesSink_ (truncBytesSink.SetString sk x)
  end.

Definition view `{Proto} (sink : Sink) : outcome (ByteView * option error) :=
  match sink with
  | stringSink_ sk => stringSink.view sk
  | byteViewSink_ sk => byteViewSink.view sk
  | protoSink_ sk => protoSink.view sk
  | allocBytesSink_ sk => allocBytesSink.view sk
  | truncBytesSink_ sk => truncBytesSink.view sk
  end.

(** The destination handed to a sink constructor. *)
Inductive dest `{Proto} : Type :=
| to_string (p : option string)        (* StringSink(p) *)
| to_ByteView (p : option ByteView)    (* ByteViewSink(p) *)
| to_proto (m : Message)               (* ProtoSink(m) *)
| to_alloc (p : option slice)          (* AllocatingByteSliceSink(p) *)
| to_trunc (p : option slice).         (* TruncatingByteSliceSink(p) *)

Definition NewSink `{Proto} (d : dest) : outcome Sink :=
  match d with
  | to_string p => Ok (stringSink_ (StringSink p))
  | to_ByteView p => sk ← ByteViewSink p; Ok (byteViewSink_ sk)
  | to_proto m => Ok (protoSink_ (ProtoSink m))
  | to_alloc p => Ok (allocBytesSink_ (AllocatingByteSliceSink p))
  | to_trunc p => Ok (truncBytesSink_ (TruncatingByteSliceSink p))
  end.

(** The destination pointer is not nil. *)
Definition valid_dest `{Proto} (d : dest) : bool :=
  match d with
  | to_string p => bool_decide (is_Some p)
  | to_ByteView p => bool_decide (is_Some p)
  | to_proto _ => true
  | to_alloc p => bool_decide (is_Some p)
  | to_trunc p => bool_decide (is_Some p)
  end.

(** One of the three setters, with its argument. *)
Inductive call `{Proto} : Type :=
| call_SetProto (m : Message)
| call_SetBytes (p : slice)
| call_SetString (x : string).

Definition do_call `{Proto} (c : call) (sink : Sink) : outcome (option error * Sink) :=
  match c with
  | call_SetProto m => SetProto sink m
  | call_SetBytes p => SetBytes sink p
  | call_SetString x => SetString sink x
  end.

(** The bytes a setter is given: for [SetProto], the encoding of the message
    (none when encoding fails). *)
Definition input `{Proto} (c : call) : option (list byte) :=
  match c with
  | call_SetProto m =>
      match Marshal m with
      | (p, None) => Some (data p)
      | (_, Some _) => None
      end
  | call_SetBytes p => Some (data p)
  | call_SetString x => Some (list_byte_of_string x)
  end.

(** The error a setter reports on a nil destination: for [SetProto] the
    encoding error comes first. *)
Definition nil_dst_error `{Proto} (c : call) (nil_dst : error) : error :=
  match c with
  | call_SetProto m => default nil_dst (Marshal m).2
  | _ => nil_dst
  end.

(** [setSinkView]: a sink that has a [setView] method (the [ByteView] sink
    and the allocating sink) receives the view itself; the others receive
    its bytes or its string. *)
Definition setSinkView `{Proto} (sink : Sink) (v : ByteView) : outcome (option error * Sink) :=
  match sink with
  | byteViewSink_ sk => as_sink byteViewSink_ (byteViewSink.setView sk v)
  | allocBytesSink_ sk => as_sink allocBytesSink_ (allocBytesSink.setView sk v)
  | _ =>
      match v.(b) with
      | Some p => SetBytes sink (Some p)
      | None => SetString sink v.(s)
      end
  end.

(** The bytes held by the caller's destination of a string, [ByteView] or
    byte-slice sink ([None] behind a nil pointer, and for a proto sink,
    whose destination is a message). *)
Definition dest_content `{Proto} (sink : Sink) : option (list byte) :=
  match sink with
  | stringSink_ sk => list_byte_of_string <$> sk.(stringSink.str)
  | byteViewSink_ sk => content <$> sk.(byteViewSink.dst)
  | protoSink_ _ => None
  | allocBytesSink_ sk => data <$> sk.(allocBytesSink.dst)
  | truncBytesSink_ sk => data <$> sk.(truncBytesSink.dst)
  end.

(** The sinks that replace their destination by the value set: all but the
    truncating sink (which copies into the destination) and the proto sink. *)
Definition replaces_dest `{Proto} (sink : Sink) : bool :=
  match sink with
  | stringSink_ _ | byteViewSink_ _ | allocBytesSink_ _ => true
  | protoSink_ _ | truncBytesSink_ _ => false
  end.

(** A view of the five bytes of ["hello"]. *)
Definition hello : ByteView := {| b := None; s := "hello" |}.

(** A stand-in for the proto library, for examples: a message is its own
    encoding, and the message ["!"] fails to encode. *)
Definition raw_proto : Proto :=
  {| Message := list byte;
     Marshal := fun m =>
       match m with
       | ["!"%byte] => (None, Some (proto_error "cannot encode"))
       | _ => (Some m, None)
       end;
     Unmarshal := fun p _ => Ok (p, None) |}.

(** A stand-in whose [Marshal] yields the nil slice, as [proto.Marshal] does
    for a nil message. *)
Definition nil_proto : Proto :=
  {| Message := unit;
     Marshal := fun _ => (None, None);
     Unmarshal := fun _ m => Ok (m, None) |}.

End p2pcache.

(** ** Package [lru] *)

Module lru.

(** [foldM f l a]: a loop over [l] whose body may panic. *)
Fixpoint foldM {A B : Type} (f : A → B → outcome A) (l : list B) (a : A) : outcome A :=
  match l with
  | [] => Ok a
  | x :: l' => a' ← f a x; foldM f l' a'
  end.

(** *** [container/list]

    A [*list.Element] is an address; the elements of a [*list.List] are the
    addresses [front, ..., back].  [MoveToFront] and [Remove] do nothing for
    an element that is not in the list, also when the list pointer is nil;
    [PushFront], [Back] and [Len] dereference the list pointer. *)
Definition Element : Type := nat.

Definition PushFront (l : list Element) (e : Element) : list Element := e :: l.

Definition Remove_elem (l : list Element) (e : Element) : list Element :=
  filter (fun x => x ≠ e) l.

Definition MoveToFront (l : list Element) (e : Element) : list Element :=
  if decide (e ∈ l) then e :: Remove_elem l e else l.

Definition Back (l : list Element) : option Element := last l.

Section cache.
Context {Key Val W : Type} `{Countable Key}.

Record entry : Type := mkEntry {
  key : Key;
  value : Val
}.

(** [OnEvicted] is a callback; [W] is the state it acts on (in the test, the
    slice of evicted keys), and the callback does not call into the cache. *)
Record LruCache : Type := mkLruCache {
  MaxEntries : Z;
  OnEvicted : option (Key → Val → W → W);
  dll : option (list Element);       (* nil, or the list front to back *)
  cache : option (gmap Key Element)  (* nil, or the map *)
}.

(** The cache together with the memory it points into: [cells] holds the
    [*entry] behind each allocated list element, [env] the callback's state. *)
Record State : Type := mkState {
  lru : LruCache;
  cells : gmap Element entry;
  env : W
}.

Definition set_lru (st : State) (c : LruCache) : State :=
  {| lru := c; cells := st.(cells); env := st.(env) |}.

Definition set_dll (st : State) (l : option (list Element)) : State :=
  set_lru st {| MaxEntries := st.(lru).(MaxEntries); OnEvicted := st.(lru).(OnEvicted);
                dll := l; cache := st.(lru).(cache) |}.

Definition set_cache (st : State) (c : option (gmap Key Element)) : State :=
  set_lru st {| MaxEntries := st.(lru).(MaxEntries); OnEvicted := st.(lru).(OnEvicted);
                dll := st.(lru).(dll); cache := c |}.

Definition set_cell (st : State) (e : Element) (ent : entry) : State :=
  {| lru := st.(lru); cells := <[e := ent]> st.(cells); env := st.(env) |}.

Definition set_env (st : State) (w : W) : State :=
  {| lru := st.(lru); cells := st.(cells); env := w |}.

(** A dereference of a possibly nil pointer. *)
Definition deref {A : Type} (p : option A) : outcome A :=
  match p with
  | Some x => Ok x
  | None => Panic
  end.

(** [lru.OnEvicted(ent.key, ent.value)], when the callback is set. *)
Definition fire (st : State) (ent : entry) : State :=
  match st.(lru).(OnEvicted) with
  | Some f => set_env st (f ent.(key) ent.(value) st.(env))
  | None => st
  end.

(** NewLru creates a new LruCache. *)
Definition NewLru (maxEntries : Z) : LruCache :=
  {| MaxEntries := maxEntries; OnEvicted := None; dll := Some []; cache := Some ∅ |}.

(** removeElement removes the provided element from dll and cache.
    Calls OnEvicted if provided. *)
Definition removeElement (st : State) (elem : Element) : outcome State :=
  let st := set_dll st ((fun l => Remove_elem l elem) <$> st.(lru).(dll)) in
  ent ← deref (st.(cells) !! elem);
  let st := set_cache st (delete ent.(key) <$> st.(lru).(cache)) in
  Ok (fire st ent).

(** RemoveOldest removes the oldest item from the cache. *)
Definition RemoveOldest (st : State) : outcome State :=
  match st.(lru).(cache) with
  | None => Ok st
  | Some _ =>
      l ← deref st.(lru).(dll);
      match Back l with
      | Some elem => removeElement st elem
      | None => Ok st
      end
  end.

(** Add adds a value to the cache. *)
Definition Add (st : State) (k : Key) (v : Val) : outcome State :=
  let st :=
    match st.(lru).(cache) with
    | None => set_dll (set_cache st (Some ∅)) (Some [])
    | Some _ => st
    end in
  c ← deref st.(lru).(cache);
  match c !! k with
  | Some elem =>
      let st := set_dll st ((fun l => MoveToFront l elem) <$> st.(lru).(dll)) in
      ent ← deref (st.(cells) !! elem);
      Ok (set_cell st elem {| key := ent.(key); value := v |})
  | None =>
      l ← deref st.(lru).(dll);
      let elem := fresh (dom st.(cells)) in
      let st := set_cell st elem {| key := k; value := v |} in
      let st := set_dll st (Some (PushFront l elem)) in
      let st := set_cache st (Some (<[k := elem]> c)) in
      if negb (st.(lru).(MaxEntries) =? 0) && (st.(lru).(MaxEntries) <? len (PushFront l elem))
      then RemoveOldest st
      else Ok st
  end.

(** Get returns a key's value if exists. *)
Definition Get (st : State) (k : Key) : outcome (State * option Val) :=
  match st.(lru).(cache) with
  | None => Ok (st, None)
  | Some c =>
      match c !! k with
      | Some elem =>
          let st := set_dll st ((fun l => MoveToFront l elem) <$> st.(lru).(dll)) in
          ent ← deref (st.(cells) !! elem);
          Ok (st, Some ent.(value))
      | None => Ok (st, None)
      end
  end.

(** Remove removes the provided key from the cache. *)
Definition Remove (st : State) (k : Key) : outcome State :=
  match st.(lru).(cache) with
  | None => Ok st
  | Some c =>
      match c !! k with
      | Some elem => removeElement st elem
      | None => Ok st
      end
  end.

(** Len returns the count of elements in the cache. *)
Definition Len (st : State) : outcome Z :=
  match st.(lru).(cache) with
  | None => Ok 0
  | Some _ => l ← deref st.(lru).(dll); Ok (len l)
  end.

(** Clear purges the cache and calls OnEvicted on every cache entry.  Go
    leaves the order of a [range] over a map unspecified; the model visits
    the map in the order of [map_to_list]. *)
Definition Clear (st : State) : outcome State :=
  st ← match st.(lru).(OnEvicted), st.(lru).(cache) with
       | Some _, Some c =>
           foldM (fun st elem => ent ← deref (st.(cells) !! elem); Ok (fire st ent))
                 (map_to_list c).*2 st
       | _, _ => Ok st
       end;
  Ok (set_cache (set_dll st None) None).

(** A cache made by [NewLru], with the callback [hook] installed, in an empty
    memory. *)
Definition init (maxEntries : Z) (hook : option (Key → Val → W → W)) (w : W) : State :=
  {| lru := {| MaxEntries := maxEntries; OnEvicted := hook;
               dll := (NewLru maxEntries).(dll); cache := (NewLru maxEntries).(cache) |};
     cells := ∅; env := w |}.

(** The storage of [st] replaced by that of a new cache; limit, callback and
    memory are kept. *)
Definition renew (st : State) : State :=
  set_lru st {| MaxEntries := st.(lru).(MaxEntries); OnEvicted := st.(lru).(OnEvicted);
                dll := (NewLru st.(lru).(MaxEntries)).(dll);
                cache := (NewLru st.(lru).(MaxEntries)).(cache) |}.

(** The operations of the cache, and a history of them. *)
Inductive op : Type :=
| op_Add (k : Key) (v : Val)
| op_Get (k : Key)
| op_Remove (k : Key)
| op_RemoveOldest
| op_Clear.

Definition step (st : State) (o : op) : outcome State :=
  match o with
  | op_Add k v => Add st k v
  | op_Get k => r ← Get st k; Ok r.1
  | op_Remove k => Remove st k
  | op_RemoveOldest => RemoveOldest st
  | op_Clear => Clear st
  end.

Definition run (st : State) (ops : list op) : outcome State := foldM step ops st.

(** [lru.Add(k, v)] for each pair, in order. *)
Definition add_all (st : State) (kvs : list (Key * Val)) : outcome State :=
  foldM (fun st kv => Add st kv.1 kv.2) kvs st.

(** The entries of the cache, most recently used first. *)
Definition entries (st : State) : list entry :=
  omap (fun e => st.(cells) !! e) (default [] st.(lru).(dll)).

(** The callback applied to an entry, if there is a callback. *)
Definition apply_hook (hook : option (Key → Val → W → W)) (w : W) (ent : entry) : W :=
  match hook with
  | Some f => f ent.(key) ent.(value) w
  | None => w
  end.

(** The representation invariant: list and map are both nil, or neither is,
    and then the list has no element twice, every element of the list has
    its entry in memory, and the map sends exactly the keys of these entries
    to their elements. *)
Definition wf (st : State) : Prop :=
  match st.(lru).(dll), st.(lru).(cache) with
  | Some l, Some c =>
      NoDup l ∧
      (∀ e, e ∈ l → is_Some (st.(cells) !! e)) ∧
      (∀ k e, c !! k = Some e ↔ e ∈ l ∧ key <$> (st.(cells) !! e) = Some k)
  | None, None => True
  | _, _ => False
  end.

(** The state of [Add] after a missing key is pushed to the front, before
    the limit is tested. *)
Definition pushed (st : State) (l : list Element) (c : gmap Key Element)
    (k : Key) (v : Val) : State :=
  let elem := fresh (dom st.(cells)) in
  set_cache (set_dll (set_cell st elem {| key := k; value := v |}) (Some (PushFront l elem)))
            (Some (<[k := elem]> c)).

(** [Add] evicts after the push when a limit is set and the list, with the
    new element, is longer than the limit. *)
Definition over_limit (st : State) (n : Z) : bool :=
  negb (st.(lru).(MaxEntries) =? 0) && (st.(lru).(MaxEntries) <? n).

(** The entry that [Add] makes of a pair. *)
Definition entry_of (kv : Key * Val) : entry := {| key := kv.1; value := kv.2 |}.

(** Limit and callback are left as they were. *)
Definition same_config (st st' : State) : Prop :=
  st'.(lru).(MaxEntries) = st.(lru).(MaxEntries) ∧
  st'.(lru).(OnEvicted) = st.(lru).(OnEvicted).

(** The number of elements of the list (0 for the nil list). *)
Definition dll_len (st : State) : nat := length (default [] st.(lru).(dll)).

(** The list is no longer than a positive limit. *)
Definition bounded (st : State) : Prop :=
  0 < st.(lru).(MaxEntries) → Z.of_nat (dll_len st) ≤ st.(lru).(MaxEntries).

End cache.

Arguments entry : clear implicits.
Arguments LruCache Key Val W : clear implicits.
Arguments State Key Val W {_ _}.

(** The callback of [TestEvict]: it appends the key to the evicted keys. *)
Definition onEvictedFunc {Key Val : Type} (k : Key) (_ : Val) (evictedKey : list Key) : list Key :=
  evictedKey ++ [k].

(** A short history on a cache of capacity 2. *)
Definition sample_ops : list (@op string Z) :=
  [op_Add "a" 1; op_Add "b" 2; op_Get "a"; op_Add "c" 3; op_Remove "a";
   op_Add "d" 4; op_Add "e" 5; op_RemoveOldest; op_Add "f" 6]%string.

(** The 25 insertions of [TestEvict]: [("key_i", 2 i)] for [i = 0 .. 24]. *)
Definition test_inserts : list (string * Z) :=
  (fun i => ("key_" ++ gostd.Itoa i, i * 2)%string) <$> seqZ 0 25.

End lru.

(** ** Package [p2pcache]: the peer picker *)

Module peers.
Section peers.
Context {ProtoGetter : Type}.

(** The interface [PeerPicker], by its one method
    [PeerPicker(key string) (peer ProtoGetter, ok bool)]. *)
Definition PeerPicker : Type := string → option ProtoGetter * bool.

(** NoPeer is an implementation of PeerPicker that never finds a peer. *)
Definition NoPeer : PeerPicker := fun _ => (None, false).

(** The package variable [portPicker]: nil, or a function from the group
    name; calling it panics if it wraps a nil function. *)
Definition portPicker_t : Type := option (string → outcome PeerPicker).

(** RegisterPeerPicker registers the peer initialization function; [fn] may
    be the nil function. *)
Definition RegisterPeerPicker (portPicker : portPicker_t) (fn : option (unit → PeerPicker)) :
    outcome portPicker_t :=
  match portPicker with
  | Some _ => Panic (* panic("peer picker called more than once") *)
  | None => Ok (Some (fun _ => f ← lru.deref fn; Ok (f tt)))
  end.

(** RegisterPerGroupPeerPicker registers the peer initialization function,
    which takes the groupName; [portPicker = fn] stores nil for a nil [fn]. *)
Definition RegisterPerGroupPeerPicker (portPicker : portPicker_t)
    (fn : option (string → PeerPicker)) : outcome portPicker_t :=
  match portPicker with
  | Some _ => Panic (* panic("peer picker called more than once") *)
  | None => Ok ((fun f groupName => Ok (f groupName)) <$> fn)
  end.

(** A call of one of the two registration functions, and a sequence of such
    calls from the start of the program, where [portPicker] is nil. *)
Inductive registration : Type :=
| reg_PeerPicker (fn : option (unit → PeerPicker))
| reg_PerGroupPeerPicker (fn : option (string → PeerPicker)).

Definition register (portPicker : portPicker_t) (r : registration) : outcome portPicker_t :=
  match r with
  | reg_PeerPicker fn => RegisterPeerPicker portPicker fn
  | reg_PerGroupPeerPicker fn => RegisterPerGroupPeerPicker portPicker fn
  end.

Definition register_all (rs : list registration) : outcome portPicker_t :=
  lru.foldM register rs None.

End peers.
End peers.

Module consistenthash_facts.
Import gostd consistenthash.

Example ChecksumIEEE_check : ChecksumIEEE (list_byte_of_string "123456789") = 0xcbf43926.
Proof. vm_compute. reflexivity. Qed.

(** *** [sort.Ints] and [sort.Search] *)

Lemma sort_Ints_sorted l : StronglySorted Z.le (sort_Ints l).
Proof. apply StronglySorted_merge_sort; apply _. Qed.

Lemma sort_Ints_perm l : sort_Ints l ≡ₚ l.
Proof. apply merge_sort_Permutation. Qed.

Lemma sort_Ints_unique l l' : StronglySorted Z.le l' → l' ≡ₚ l → l' = sort_Ints l.
Proof.
  intros Hs Hp. apply (StronglySorted_unique Z.le); auto using sort_Ints_sorted.
  by rewrite sort_Ints_perm.
Qed.

Lemma elem_of_sort_Ints l x : x ∈ sort_Ints l ↔ x ∈ l.
Proof. by rewrite sort_Ints_perm. Qed.

Lemma midpoint i j : i < j → i ≤ Z.shiftr (i + j) 1 < j.
Proof.
  intros Hij. rewrite Z.shiftr_div_pow2 by lia.
  change (2 ^ 1) with 2. split.
  - apply Z.div_le_lower_bound; lia.
  - apply Z.div_lt_upper_bound; lia.
Qed.

(** The loop never runs out of iterations: any two budgets of at least
    [j - i] give the same result. *)
Lemma search_loop_enough f fuel1 : ∀ fuel2 i j,
  j - i ≤ Z.of_nat fuel1 → j - i ≤ Z.of_nat fuel2 →
  search_loop fuel1 f i j = search_loop fuel2 f i j.
Proof.
  induction fuel1 as [|fuel1 IH]; intros fuel2 i j H1 H2.
  - destruct fuel2; simpl; destruct (Z.ltb_spec i j); try done; lia.
  - destruct fuel2 as [|fuel2]; simpl; destruct (Z.ltb_spec i j) as [Hij|Hij]; try done; try lia.
    pose proof (midpoint i j Hij) as Hh.
    destruct (f (Z.shiftr (i + j) 1)) as [b|]; simpl; [|done].
    destruct b; simpl; apply IH; lia.
Qed.

(** Binary search over a monotone predicate [p] on [0, n): the result is the
    first index at which [p] holds, or [n]. *)
Lemma search_loop_spec f (p : Z → bool) n fuel : ∀ i j,
  (∀ k, 0 ≤ k < n → f k = Ok (p k)) →
  (∀ k k', 0 ≤ k ≤ k' → k' < n → p k = true → p k' = true) →
  0 ≤ i ≤ j → j ≤ n → j - i ≤ Z.of_nat fuel →
  (∀ k, 0 ≤ k < i → p k = false) →
  (∀ k, j ≤ k < n → p k = true) →
  ∃ r, search_loop fuel f i j = Ok r ∧ i ≤ r ≤ j ∧
       (∀ k, 0 ≤ k < r → p k = false) ∧ (∀ k, r ≤ k < n → p k = true).
Proof.
  induction fuel as [|fuel IH]; intros i j Hf Hmono Hij Hjn Hfuel Hlo Hhi.
  - simpl. destruct (Z.ltb_spec i j); [lia|].
    exists i. split; [done|]. split; [lia|]. split; [done|].
    intros k Hk. apply Hhi. lia.
  - simpl. destruct (Z.ltb_spec i j) as [Hlt|Hge].
    + pose proof (midpoint i j Hlt) as Hh.
      set (h := Z.shiftr (i + j) 1) in *.
      rewrite Hf by lia. simpl.
      destruct (p h) eqn:Hph; simpl.
      * destruct (IH i h) as (r & Hr & Hb & Hr1 & Hr2); auto; try lia.
        { intros k Hk. apply (Hmono h k); [lia|lia|done]. }
        exists r. repeat split; auto; lia.
      * destruct (IH (h + 1) j) as (r & Hr & Hb & Hr1 & Hr2); auto; try lia.
        { intros k Hk. destruct (p k) eqn:Hpk; [|done].
          rewrite <- Hph. symmetry. apply (Hmono k h); [lia|lia|done]. }
        exists r. repeat split; auto; lia.
    + exists i. split; [done|]. split; [lia|]. split; [done|].
      intros k Hk. apply Hhi. lia.
Qed.

Lemma Search_spec f (p : Z → bool) n :
  0 ≤ n →
  (∀ k, 0 ≤ k < n → f k = Ok (p k)) →
  (∀ k k', 0 ≤ k ≤ k' → k' < n → p k = true → p k' = true) →
  ∃ r, Search n f = Ok r ∧ 0 ≤ r ≤ n ∧
       (∀ k, 0 ≤ k < r → p k = false) ∧ (∀ k, r ≤ k < n → p k = true).
Proof.
  intros Hn Hf Hmono. unfold Search.
  apply (search_loop_spec f p n); auto; try lia.
Qed.

(** *** Indexing *)

Lemma index_Ok {A} (l : list A) (i : Z) x :
  index l i = Ok x ↔ 0 ≤ i ∧ l !! Z.to_nat i = Some x.
Proof.
  unfold index. destruct (Z.ltb_spec i 0).
  - split; [done|]. lia.
  - destruct (l !! Z.to_nat i); split; intros; destruct_and?; simplify_eq; auto.
Qed.

Lemma index_in_range {A} (l : list A) (i : Z) :
  0 ≤ i < len l → ∃ x, index l i = Ok x ∧ l !! Z.to_nat i = Some x.
Proof.
  unfold len. intros Hi.
  destruct (lookup_lt_is_Some_2 l (Z.to_nat i)) as [x Hx]; [lia|].
  exists x. split; [|done]. apply index_Ok. split; [lia|done].
Qed.

Lemma StronglySorted_lookup_le (l : list Z) i j x y :
  StronglySorted Z.le l → (i ≤ j)%nat → l !! i = Some x → l !! j = Some y → x ≤ y.
Proof.
  intros Hs. revert i j. induction Hs as [|a l Hs IH Hall]; intros i j Hij Hi Hj.
  - done.
  - destruct i as [|i], j as [|j]; simpl in *; simplify_eq; try lia.
    + rewrite Forall_forall in Hall. apply Hall. by eapply list_elem_of_lookup_2.
    + eapply IH; [|done..]. lia.
Qed.

(** *** What [Add] stores *)

Lemma node_hash_ext m m' i p : hash m' = hash m → node_hash m' i p = node_hash m i p.
Proof. unfold node_hash, call_hash. by intros ->. Qed.

Lemma add_replicas_fields p js : ∀ m,
  let m' := fold_left (add_replica p) js m in
  hash m' = hash m ∧ replicas m' = replicas m ∧
  keys m' = keys m ++ ((λ i, node_hash m i p) <$> js).
Proof.
  induction js as [|i js IH]; intros m; simpl.
  - by rewrite app_nil_r.
  - destruct (IH (add_replica p m i)) as (Hh & Hr & Hk).
    rewrite Hh, Hr, Hk. simpl. split; [done|]. split; [done|].
    by rewrite <- app_assoc.
Qed.

Lemma add_key_fields m p :
  hash (add_key m p) = hash m ∧ replicas (add_key m p) = replicas m ∧
  keys (add_key m p) = keys m ++ ((λ i, node_hash m i p) <$> seqZ 0 (replicas m)).
Proof. apply add_replicas_fields. Qed.

Lemma add_keys_fields ps : ∀ m,
  hash (fold_left add_key ps m) = hash m ∧
  replicas (fold_left add_key ps m) = replicas m.
Proof.
  induction ps as [|p ps IH]; intros m; simpl; [done|].
  destruct (IH (add_key m p)) as [-> ->]. destruct (add_key_fields m p) as (-> & -> & _). done.
Qed.

Lemma Add_fields m ps : hash (Add m ps) = hash m ∧ replicas (Add m ps) = replicas m.
Proof. unfold Add; simpl. apply add_keys_fields. Qed.

Lemma ring_fields r h adds :
  hash (ring r h adds) = hash (New r h) ∧ replicas (ring r h adds) = r.
Proof.
  unfold ring.
  assert (Hgen : ∀ m, hash (fold_left Add adds m) = hash m ∧
                      replicas (fold_left Add adds m) = replicas m).
  { induction adds as [|ps adds IH]; intros m; simpl; [done|].
    destruct (IH (Add m ps)) as [-> ->]. apply Add_fields. }
  apply Hgen.
Qed.

(** Every stored hash is the hash of a virtual node of a peer of [P], and
    every hash of the sorted sequence has an entry in the map. *)
Definition stored (P : list string) (m : Map) : Prop :=
  (∀ k, k ∈ keys m → is_Some (hashMap m !! k)) ∧
  (∀ k q, hashMap m !! k = Some q →
          q ∈ P ∧ ∃ i, 0 ≤ i < replicas m ∧ node_hash m i q = k).

Lemma stored_mono P P' m : P ⊆ P' → stored P m → stored P' m.
Proof.
  intros HP [H1 H2]. split; [done|].
  intros k q Hq. destruct (H2 k q Hq) as [? ?]. split; auto.
Qed.

Lemma add_replica_stored P m p i :
  p ∈ P → 0 ≤ i < replicas m → stored P m → stored P (add_replica p m i).
Proof.
  intros Hp Hi [H1 H2]. split; simpl.
  - intros k [Hk|Hk%list_elem_of_singleton]%elem_of_app.
    + rewrite lookup_insert. case_decide; [by eexists|]. auto.
    + subst k. rewrite lookup_insert_eq. by eexists.
  - intros k q. rewrite lookup_insert. case_decide as Hd.
    + intros [= <-]. split; [done|]. exists i. split; [done|]. by rewrite <- Hd.
    + intros Hq. destruct (H2 k q Hq) as (? & j & ? & ?). split; [done|]. by exists j.
Qed.

Lemma add_replicas_stored P p js : ∀ m,
  p ∈ P → (∀ i, i ∈ js → 0 ≤ i < replicas m) → stored P m →
  stored P (fold_left (add_replica p) js m).
Proof.
  induction js as [|i js IH]; intros m Hp Hjs Hm; simpl; [done|].
  apply IH; [done| |].
  - intros j Hj. simpl. apply Hjs. by right.
  - apply add_replica_stored; [done| |done]. apply Hjs. by left.
Qed.

Lemma add_key_stored P m p : p ∈ P → stored P m → stored P (add_key m p).
Proof.
  intros Hp Hm. apply add_replicas_stored; [done| |done].
  intros i Hi%elem_of_seqZ. lia.
Qed.

Lemma add_keys_stored P ps : ∀ m, ps ⊆ P → stored P m → stored P (fold_left add_key ps m).
Proof.
  induction ps as [|p ps IH]; intros m Hps Hm; simpl; [done|].
  apply IH; [set_solver|]. apply add_key_stored; [set_solver|done].
Qed.

Lemma Add_stored P m ps : ps ⊆ P → stored P m → stored P (Add m ps).
Proof.
  intros Hps Hm. destruct (add_keys_stored P ps m Hps Hm) as [H1 H2].
  split; simpl.
  - intros k Hk. rewrite elem_of_sort_Ints in Hk. auto.
  - intros k q Hq. destruct (H2 k q Hq) as (? & i & ? & ?). split; [done|].
    exists i. split; [done|]. by rewrite <- H3.
Qed.

Lemma ring_stored r h adds : stored (concat adds) (ring r h adds).
Proof.
  unfold ring. assert (Hnew : stored [] (New r h)).
  { split; simpl; [intros k Hk; by apply elem_of_nil in Hk|]. intros k q. by rewrite lookup_empty. }
  assert (Hgen : ∀ P m, stored P m → stored (P ++ concat adds) (fold_left Add adds m)).
  { induction adds as [|ps adds IH]; intros P m Hm; simpl.
    - by rewrite app_nil_r.
    - rewrite app_assoc. apply IH. apply Add_stored; [set_solver|].
      eapply stored_mono; [|done]. set_solver. }
  apply (Hgen [] _ Hnew).
Qed.

(** Every virtual node of every added peer is in the sorted sequence. *)
Lemma add_keys_complete ps : ∀ m k,
  k ∈ keys (fold_left add_key ps m) ↔
  k ∈ keys m ∨ ∃ p i, p ∈ ps ∧ 0 ≤ i < replicas m ∧ k = node_hash m i p.
Proof.
  induction ps as [|p ps IH]; intros m k; simpl.
  - split; [auto|]. intros [?|(p & i & Hp & _)]; [done|by apply elem_of_nil in Hp].
  - rewrite IH. destruct (add_key_fields m p) as (Hh & Hr & Hk). rewrite Hr, Hk.
    rewrite elem_of_app, list_elem_of_fmap. split.
    + intros [[?|(i & -> & Hi%elem_of_seqZ)]|(q & i & Hq & Hi & ->)]; [by left| |].
      * right. exists p, i. split; [by left|]. split; [lia|done].
      * right. exists q, i. split; [by right|]. split; [done|]. by apply node_hash_ext.
    + intros [?|(q & i & [->|Hq]%elem_of_cons & Hi & ->)]; [by left; left| |].
      * left; right. exists i. split; [done|]. apply elem_of_seqZ. lia.
      * right. exists q, i. split; [done|]. split; [done|]. symmetry. by apply node_hash_ext.
Qed.

Lemma ring_keys r h adds k :
  k ∈ keys (ring r h adds) ↔
  ∃ p i, p ∈ concat adds ∧ 0 ≤ i < r ∧ k = node_hash (New r h) i p.
Proof.
  unfold ring. 
  assert (Hgen : ∀ m, hash m = hash (New r h) → replicas m = r →
    (k ∈ keys (fold_left Add adds m) ↔
     k ∈ keys m ∨ ∃ p i, p ∈ concat adds ∧ 0 ≤ i < r ∧ k = node_hash (New r h) i p)).
  { induction adds as [|ps adds IH]; intros m Hh Hr; simpl.
    - split; [auto|]. intros [?|(p & i & Hp & _)]; [done|by apply elem_of_nil in Hp].
    - destruct (Add_fields m ps) as [Hh' Hr'].
      rewrite IH by congruence. unfold Add at 1; simpl.
      rewrite elem_of_sort_Ints, add_keys_complete, Hr. split.
      + intros [[?|(p & i & ? & ? & ->)]|(p & i & ? & ? & ->)]; [by left|right..].
        * exists p, i. split; [set_solver|]. split; [done|]. by apply node_hash_ext.
        * exists p, i. split; [set_solver|]. done.
      + intros [?|(p & i & [?|?]%elem_of_app & ? & ->)]; [by left; left| |].
        * left; right. exists p, i. split; [done|]. split; [done|]. symmetry. by apply node_hash_ext.
        * right. by exists p, i. }
  rewrite Hgen by done. simpl. split; [|auto]. intros [Hk|?]; [by apply elem_of_nil in Hk|done].
Qed.

Lemma Add_sorted m ps : StronglySorted Z.le (keys (Add m ps)).
Proof. apply sort_Ints_sorted. Qed.

Lemma ring_sorted r h adds : StronglySorted Z.le (keys (ring r h adds)).
Proof.
  unfold ring. destruct adds as [|ps adds _] using rev_ind.
  - constructor.
  - rewrite fold_left_app. simpl. apply Add_sorted.
Qed.

(** *** [Get] *)

Lemma owner_unique ks ks' h hv hv' :
  (∀ x, x ∈ ks ↔ x ∈ ks') → owner ks h hv → owner ks' h hv' → hv = hv'.
Proof.
  intros Hks [Hin [[H1 H2]|[H1 H2]]] [Hin' [[H1' H2']|[H1' H2']]].
  - apply Z.le_antisymm; [apply H2|apply H2']; auto; by apply Hks.
  - apply Hks in Hin. specialize (H1' _ Hin). lia.
  - apply Hks in Hin'. specialize (H1 _ Hin'). lia.
  - apply Z.le_antisymm; [apply H2|apply H2']; by apply Hks.
Qed.

Lemma Get_sorted m key :
  StronglySorted Z.le (keys m) → IsEmpty m = false →
  ∃ hv, owner (keys m) (call_hash m (list_byte_of_string key)) hv ∧
        Get m key = Ok (hashMap_at m hv).
Proof.
  intros Hs Hne. unfold Get. rewrite Hne.
  set (hk := call_hash m (list_byte_of_string key)).
  set (n := len (keys m)).
  assert (Hn : 0 < n).
  { unfold IsEmpty in Hne. apply Z.eqb_neq in Hne. unfold n, len in *. lia. }
  set (p := fun i : Z => default 0 (keys m !! Z.to_nat i) >=? hk).
  destruct (Search_spec (fun i => k ← index (keys m) i; Ok (k >=? hk)) p n)
    as (r & Hr & Hrn & Hlo & Hhi).
  { lia. }
  { intros k Hk. destruct (index_in_range (keys m) k Hk) as (x & -> & Hx).
    simpl. unfold p. by rewrite Hx. }
  { intros k k' Hkk' Hk'. unfold p.
    destruct (index_in_range (keys m) k) as (x & _ & Hx); [unfold n in *; lia|].
    destruct (index_in_range (keys m) k') as (x' & _ & Hx'); [unfold n in *; lia|].
    rewrite Hx, Hx'. simpl. intros Hge.
    pose proof (StronglySorted_lookup_le _ (Z.to_nat k) (Z.to_nat k') x x' Hs) as Hle.
    apply Z.geb_le; apply Z.geb_le in Hge. etrans; [exact Hge|]. apply Hle; [lia|done..]. }
  rewrite Hr. simpl.
  assert (Hall : ∀ x, x ∈ keys m → ∃ k, 0 ≤ k < n ∧ keys m !! Z.to_nat k = Some x).
  { intros x [i Hi]%list_elem_of_lookup. exists (Z.of_nat i).
    rewrite Nat2Z.id. split; [|done]. apply lookup_lt_Some in Hi. unfold n, len. lia. }
  assert (Hp : ∀ k x, keys m !! Z.to_nat k = Some x → p k = (x >=? hk)).
  { intros k x Hx. unfold p. by rewrite Hx. }
  destruct (Z.eqb_spec r n) as [->|Hrn'].
  - destruct (index_in_range (keys m) 0) as (x0 & -> & Hx0); [fold n; lia|].
    simpl. exists x0. split; [|done]. split; [by eapply list_elem_of_lookup_2|].
    right. split.
    + intros x (k & Hk & Hx)%Hall. specialize (Hlo k Hk).
      rewrite (Hp _ _ Hx) in Hlo. destruct (Z.geb_spec x hk); [done|lia].
    + intros x (k & Hk & Hx)%Hall.
      apply (StronglySorted_lookup_le _ (Z.to_nat 0) (Z.to_nat k) x0 x Hs); [lia|done..].
  - destruct (index_in_range (keys m) r) as (xr & -> & Hxr); [fold n; lia|].
    simpl. exists xr. split; [|done]. split; [by eapply list_elem_of_lookup_2|].
    assert (Hge : hk ≤ xr).
    { specialize (Hhi r ltac:(lia)). rewrite (Hp _ _ Hxr) in Hhi. by apply Z.geb_le. }
    left. split; [done|].
    intros x (k & Hk & Hx)%Hall Hx'.
    destruct (Z.le_gt_cases r k).
    + apply (StronglySorted_lookup_le _ (Z.to_nat r) (Z.to_nat k) xr x Hs); [lia|done..].
    + specialize (Hlo k ltac:(lia)). rewrite (Hp _ _ Hx) in Hlo.
      destruct (Z.geb_spec x hk); [done|lia].
Qed.

(** C1.  On a ring built by [New] and [Add] that is not empty, [Get key]
    returns (without panic) the peer that owns [hash(key)]: a peer that was
    handed to [Add], one of whose [replicas] virtual nodes has the owning
    hash, and that [hashMap] maps this hash to.  The owning hash is the
    smallest stored virtual-node hash that is greater than or equal to
    [hash(key)], or, when [hash(key)] exceeds every stored hash, the smallest
    stored hash. *)
Theorem Get_owner (r : Z) (h : option Hash) (adds : list (list string)) (key : string) :
  IsEmpty (ring r h adds) = false →
  ∃ hv peer i,
    owner (keys (ring r h adds))
          (call_hash (ring r h adds) (list_byte_of_string key)) hv ∧
    peer ∈ concat adds ∧
    0 ≤ i < r ∧ node_hash (ring r h adds) i peer = hv ∧
    hashMap (ring r h adds) !! hv = Some peer ∧
    Get (ring r h adds) key = Ok peer.
Proof.
  intros Hne.
  destruct (Get_sorted (ring r h adds) key (ring_sorted r h adds) Hne) as (hv & Hown & HGet).
  destruct (ring_stored r h adds) as [Hdom Hst].
  destruct (Hdom hv (proj1 Hown)) as [peer Hpeer].
  destruct (Hst hv peer Hpeer) as (Hin & i & Hi & Hnode).
  destruct (ring_fields r h adds) as [_ Hr]. rewrite Hr in Hi.
  exists hv, peer, i. split; [done|]. split; [done|]. split; [done|].
  split; [done|]. split; [done|].
  rewrite HGet. unfold hashMap_at. by rewrite Hpeer.
Qed.

Lemma Get_owner_witness :
  IsEmpty (ring 3 None [["peerA"; "peerB"]%string]) = false ∧
  ∃ hv peer i,
    owner (keys (ring 3 None [["peerA"; "peerB"]%string]))
          (call_hash (ring 3 None [["peerA"; "peerB"]%string])
                     (list_byte_of_string "some-key")) hv ∧
    peer ∈ concat [["peerA"; "peerB"]%string] ∧
    0 ≤ i < 3 ∧ node_hash (ring 3 None [["peerA"; "peerB"]%string]) i peer = hv ∧
    hashMap (ring 3 None [["peerA"; "peerB"]%string]) !! hv = Some peer ∧
    Get (ring 3 None [["peerA"; "peerB"]%string]) "some-key" = Ok peer.
Proof.
  split; [vm_compute; reflexivity|].
  apply (Get_owner 3 None [["peerA"; "peerB"]%string] "some-key").
  vm_compute; reflexivity.
Defined.

(** C9.  On an empty ring [Get] returns the empty string, for every key. *)
Theorem Get_empty (m : Map) (key : string) :
  IsEmpty m = true → Get m key = Ok ""%string.
Proof. intros He. unfold Get. by rewrite He. Qed.

Lemma Get_empty_witness :
  IsEmpty (New 3 None) = true ∧ Get (New 3 None) "some-key" = Ok ""%string.
Proof.
  split; [reflexivity|]. apply (Get_empty (New 3 None) "some-key"). reflexivity.
Defined.

Lemma IsEmpty_keys m : IsEmpty m = true ↔ keys m = [].
Proof.
  unfold IsEmpty, len. rewrite Z.eqb_eq. split.
  - intros Hl. apply nil_length_inv. lia.
  - by intros ->.
Qed.

(** C3, as the code has it.  Two rings with the same replica count and hash
    function, populated by [Add] calls with the same set of peers (in any
    order, with any split into calls), answer every [Get] alike, provided no
    two distinct peers have virtual nodes with the same hash. *)
Theorem Get_deterministic (r : Z) (h : option Hash) (adds1 adds2 : list (list string)) :
  (∀ p, p ∈ concat adds1 ↔ p ∈ concat adds2) →
  collision_free (New r h) (concat adds1) →
  ∀ key, Get (ring r h adds1) key = Get (ring r h adds2) key.
Proof.
  intros Hsame Hfree key.
  set (m1 := ring r h adds1). set (m2 := ring r h adds2).
  assert (Hkeys : ∀ x, x ∈ keys m1 ↔ x ∈ keys m2).
  { intros x. unfold m1, m2. rewrite !ring_keys.
    split; intros (p & i & Hp & Hi & ->); exists p, i; (split; [by apply Hsame|done]). }
  destruct (ring_fields r h adds1) as [Hh1 Hr1].
  destruct (ring_fields r h adds2) as [Hh2 Hr2].
  destruct (IsEmpty m1) eqn:He1.
  - assert (He2 : IsEmpty m2 = true).
    { apply IsEmpty_keys. apply IsEmpty_keys in He1. apply elem_of_nil_inv.
      intros x Hx. apply (proj2 (Hkeys x)) in Hx. rewrite He1 in Hx.
      by apply elem_of_nil in Hx. }
    unfold Get. by rewrite He1, He2.
  - assert (He2 : IsEmpty m2 = false).
    { destruct (IsEmpty m2) eqn:He2; [|done].
      apply IsEmpty_keys in He2. apply not_true_iff_false in He1. exfalso. apply He1.
      apply IsEmpty_keys. apply elem_of_nil_inv.
      intros x Hx. apply (proj1 (Hkeys x)) in Hx. rewrite He2 in Hx.
      by apply elem_of_nil in Hx. }
    destruct (Get_sorted m1 key (ring_sorted r h adds1) He1) as (hv1 & Ho1 & HG1).
    destruct (Get_sorted m2 key (ring_sorted r h adds2) He2) as (hv2 & Ho2 & HG2).
    destruct (proj1 (ring_stored r h adds1) hv1 (proj1 Ho1)) as [p1 Hp1].
    destruct (proj1 (ring_stored r h adds2) hv2 (proj1 Ho2)) as [p2 Hp2].
    fold m1 in Hp1. fold m2 in Hp2. rewrite HG1, HG2. unfold hashMap_at.
    rewrite Hp1, Hp2. simpl.
    assert (Hhk : call_hash m2 (list_byte_of_string key)
                  = call_hash m1 (list_byte_of_string key)).
    { unfold call_hash, m1, m2. by rewrite Hh1, Hh2. }
    rewrite Hhk in Ho2.
    pose proof (owner_unique _ _ _ _ _ Hkeys Ho1 Ho2) as <-.
    destruct (ring_stored r h adds1) as [_ Hst1].
    destruct (ring_stored r h adds2) as [_ Hst2].
    destruct (Hst1 _ _ Hp1) as (Hin1 & i & Hi & Hn1).
    destruct (Hst2 _ _ Hp2) as (Hin2 & j & Hj & Hn2).
    f_equal. apply (Hfree p1 p2 i j); simpl; auto.
    + by apply Hsame.
    + lia.
    + lia.
    + rewrite <- (node_hash_ext (New r h) (ring r h adds1) i p1 Hh1).
      rewrite <- (node_hash_ext (New r h) (ring r h adds2) j p2 Hh2).
      congruence.
Qed.

Lemma Get_deterministic_witness :
  (∀ p, p ∈ concat [["peerA"; "peerB"]%string] ↔ p ∈ concat [["peerB"]; ["peerA"]%string]) ∧
  collision_free (New 2 None) (concat [["peerA"; "peerB"]%string]) ∧
  ∀ key, Get (ring 2 None [["peerA"; "peerB"]%string]) key
         = Get (ring 2 None [["peerB"]; ["peerA"]%string]) key.
Proof.
  assert (H1 : ∀ p, p ∈ concat [["peerA"; "peerB"]%string] ↔ p ∈ concat [["peerB"]; ["peerA"]%string]).
  { intros p. simpl. set_solver. }
  assert (H2 : collision_free (New 2 None) (concat [["peerA"; "peerB"]%string])).
  { intros p q i j Hp Hq Hi Hj. simpl in *.
    assert (Hi' : i = 0 ∨ i = 1) by lia. assert (Hj' : j = 0 ∨ j = 1) by lia.
    assert (Hp' : p = "peerA"%string ∨ p = "peerB"%string) by set_solver.
    assert (Hq' : q = "peerA"%string ∨ q = "peerB"%string) by set_solver.
    destruct Hi' as [-> | ->], Hj' as [-> | ->], Hp' as [-> | ->], Hq' as [-> | ->];
      try reflexivity; vm_compute; intros [=]. }
  split; [exact H1|]. split; [exact H2|].
  exact (Get_deterministic 2 None _ _ H1 H2).
Defined.

(** C3, as stated, fails: with the default CRC-32 and one replica per peer,
    the first virtual nodes of [peer_a] and [peer_b] collide, and the ring
    keeps the peer added last. *)
Lemma Get_depends_on_order :
  (∀ p, p ∈ concat [[peer_a; peer_b]] ↔ p ∈ concat [[peer_b; peer_a]]) ∧
  Get (ring 1 None [[peer_a; peer_b]]) "some-key" = Ok peer_b ∧
  Get (ring 1 None [[peer_b; peer_a]]) "some-key" = Ok peer_a ∧
  Get (ring 1 None [[peer_a; peer_b]]) "some-key"
    ≠ Get (ring 1 None [[peer_b; peer_a]]) "some-key".
Proof.
  split; [intros p; simpl; set_solver|].
  split; [vm_compute; reflexivity|].
  split; [vm_compute; reflexivity|].
  vm_compute. intros [=].
Qed.

(** *** Further properties of the ring *)

Lemma elem_of_node_hashes m ps k :
  k ∈ node_hashes m ps ↔ ∃ p i, p ∈ ps ∧ 0 ≤ i < replicas m ∧ k = node_hash m i p.
Proof.
  unfold node_hashes. rewrite list_elem_of_bind. split.
  - intros (p & (i & -> & Hi%elem_of_seqZ)%list_elem_of_fmap & Hp).
    exists p, i. split; [done|]. split; [lia|done].
  - intros (p & i & Hp & Hi & ->). exists p. split; [|done].
    apply list_elem_of_fmap. exists i. split; [done|]. apply elem_of_seqZ. lia.
Qed.

Lemma add_keys_keys ps : ∀ m,
  keys (fold_left add_key ps m) = keys m ++ node_hashes m ps.
Proof.
  induction ps as [|p ps IH]; intros m; simpl.
  - unfold node_hashes. simpl. by rewrite app_nil_r.
  - rewrite IH. destruct (add_key_fields m p) as (Hh & Hr & ->).
    rewrite <- app_assoc. f_equal. unfold node_hashes. simpl. rewrite Hr. f_equal.
    apply list_bind_ext; [|done]. intros q. apply list_fmap_ext.
    intros _ i _. by apply node_hash_ext.
Qed.

Lemma length_node_hashes m ps :
  length (node_hashes m ps) = (Z.to_nat (replicas m) * length ps)%nat.
Proof.
  unfold node_hashes. induction ps as [|p ps IH]; simpl; [lia|].
  rewrite length_app, length_fmap, length_seqZ. unfold mbind in IH. rewrite IH. lia.
Qed.

Lemma Add_keys m ps : keys (Add m ps) = sort_Ints (keys m ++ node_hashes m ps).
Proof. unfold Add. simpl. by rewrite add_keys_keys. Qed.

Lemma node_hashes_ext m m' ps :
  hash m' = hash m → replicas m' = replicas m → node_hashes m' ps = node_hashes m ps.
Proof.
  intros Hh Hr. unfold node_hashes. rewrite Hr. apply list_bind_ext; [|done].
  intros q. apply list_fmap_ext. intros _ i _. by apply node_hash_ext.
Qed.

Lemma node_hashes_app m ps qs :
  node_hashes m (ps ++ qs) = node_hashes m ps ++ node_hashes m qs.
Proof. unfold node_hashes. apply bind_app. Qed.

Lemma ring_keys_length r h adds :
  length (keys (ring r h adds)) = (Z.to_nat r * length (concat adds))%nat.
Proof.
  unfold ring.
  assert (Hgen : ∀ m, replicas m = r →
    length (keys (fold_left Add adds m))
    = (length (keys m) + Z.to_nat r * length (concat adds))%nat).
  { induction adds as [|ps adds IH]; intros m Hr; simpl; [lia|].
    destruct (Add_fields m ps) as [_ Hr'].
    rewrite IH by congruence. rewrite Add_keys.
    rewrite (Permutation_length (sort_Ints_perm _)).
    rewrite !length_app, length_node_hashes, Hr. lia. }
  rewrite Hgen by done. simpl. lia.
Qed.

(** X1.  The sorted sequence of a ring holds [replicas] hashes for every
    peer handed to [Add] (none when [replicas] is not positive), in
    increasing order. *)
Theorem ring_keys_sorted_length (r : Z) (h : option Hash) (adds : list (list string)) :
  StronglySorted Z.le (keys (ring r h adds)) ∧
  length (keys (ring r h adds)) = (Z.to_nat r * length (concat adds))%nat.
Proof. split; [apply ring_sorted|apply ring_keys_length]. Qed.

(** X2.  The ring is empty exactly when the replica count is not positive or
    no peer was handed to [Add]. *)
Theorem ring_IsEmpty_iff (r : Z) (h : option Hash) (adds : list (list string)) :
  IsEmpty (ring r h adds) = true ↔ r ≤ 0 ∨ concat adds = [].
Proof.
  unfold IsEmpty, len. rewrite Z.eqb_eq, ring_keys_length.
  destruct (concat adds) as [|p ps]; simpl; [split; [by right|lia]|].
  split; [intros Hz; left; lia|]. intros [Hr|[=]]. lia.
Qed.

(** X3.  [Get] never panics on a ring: it returns the empty string when the ring
    is empty, and otherwise one of the peers that were added. *)
Theorem Get_returns_added_peer (r : Z) (h : option Hash) (adds : list (list string))
    (key : string) :
  ∃ peer, Get (ring r h adds) key = Ok peer ∧
    if IsEmpty (ring r h adds) then peer = ""%string else peer ∈ concat adds.
Proof.
  destruct (IsEmpty (ring r h adds)) eqn:He.
  - exists ""%string. split; [|done]. unfold Get. by rewrite He.
  - destruct (Get_sorted (ring r h adds) key (ring_sorted r h adds) He) as (hv & Hown & HGet).
    destruct (ring_stored r h adds) as [Hdom Hst].
    destruct (Hdom hv (proj1 Hown)) as [peer Hpeer].
    exists peer. split.
    + rewrite HGet. unfold hashMap_at. by rewrite Hpeer.
    + by destruct (Hst hv peer Hpeer).
Qed.

Lemma Map_eq (a b : Map) :
  hash a = hash b → replicas a = replicas b → keys a = keys b →
  hashMap a = hashMap b → a = b.
Proof. destruct a, b; simpl. by intros -> -> -> ->. Qed.

Lemma add_replicas_hashMap_ext p js : ∀ m m',
  hash m = hash m' → replicas m = replicas m' → hashMap m = hashMap m' →
  hashMap (fold_left (add_replica p) js m) = hashMap (fold_left (add_replica p) js m').
Proof.
  induction js as [|i js IH]; intros m m' Hh Hr Hm; simpl; [done|].
  apply IH; simpl; [done..|]. unfold call_hash. by rewrite Hh, Hm.
Qed.

Lemma add_keys_hashMap_ext ps : ∀ m m',
  hash m = hash m' → replicas m = replicas m' → hashMap m = hashMap m' →
  hashMap (fold_left add_key ps m) = hashMap (fold_left add_key ps m').
Proof.
  induction ps as [|p ps IH]; intros m m' Hh Hr Hm; simpl; [done|].
  destruct (add_key_fields m p) as (Hh1 & Hr1 & _).
  destruct (add_key_fields m' p) as (Hh2 & Hr2 & _).
  apply IH; [congruence..|]. unfold add_key. rewrite Hr.
  by apply add_replicas_hashMap_ext.
Qed.

Lemma add_replicas_hashMap p js : ∀ m k,
  (k ∈ (λ i, node_hash m i p) <$> js →
   hashMap (fold_left (add_replica p) js m) !! k = Some p) ∧
  (k ∉ (λ i, node_hash m i p) <$> js →
   hashMap (fold_left (add_replica p) js m) !! k = hashMap m !! k).
Proof.
  induction js as [|i js IH]; intros m k; simpl.
  - split; [by intros ?%elem_of_nil|done].
  - destruct (IH (add_replica p m i) k) as [IHin IHout].
    assert (Hext : (λ j, node_hash (add_replica p m i) j p) <$> js
                   = (λ j, node_hash m j p) <$> js).
    { apply list_fmap_ext. intros _ j _. by apply node_hash_ext. }
    rewrite Hext in IHin, IHout.
    destruct (decide (k ∈ (λ j, node_hash m j p) <$> js)) as [Hin|Hout].
    + split; [intros _; by apply IHin|]. intros Hn. contradict Hn. by right.
    + rewrite (IHout Hout). simpl. fold (node_hash m i p). split.
      * intros [->|Hin]%elem_of_cons; [by rewrite lookup_insert_eq|done].
      * intros Hn. rewrite lookup_insert_ne; [done|]. intros <-. apply Hn. by left.
Qed.

Lemma add_keys_hashMap ps : ∀ m k,
  (k ∈ node_hashes m ps →
   ∃ q, q ∈ ps ∧ hashMap (fold_left add_key ps m) !! k = Some q) ∧
  (k ∉ node_hashes m ps →
   hashMap (fold_left add_key ps m) !! k = hashMap m !! k).
Proof.
  induction ps as [|p ps IH]; intros m k; simpl.
  - split; [by intros ?%elem_of_nil|done].
  - destruct (add_key_fields m p) as (Hh & Hr & _).
    destruct (IH (add_key m p) k) as [IHin IHout].
    rewrite (node_hashes_ext m (add_key m p)) in IHin, IHout by done.
    destruct (add_replicas_hashMap p (seqZ 0 (replicas m)) m k) as [Hin1 Hout1].
    fold (add_key m p) in Hin1, Hout1.
    change (node_hashes m (p :: ps))
      with (((λ i, node_hash m i p) <$> seqZ 0 (replicas m)) ++ node_hashes m ps).
    destruct (decide (k ∈ node_hashes m ps)) as [Hin|Hout].
    + split; [|intros Hn; contradict Hn; apply elem_of_app; by right].
      intros _. destruct (IHin Hin) as (q & Hq & Hlk). exists q. split; [by right|done].
    + rewrite (IHout Hout). split.
      * intros [Hk|Hk]%elem_of_app; [|done]. exists p. split; [by left|by apply Hin1].
      * intros Hn. apply Hout1. intros Hk. apply Hn, elem_of_app. by left.
Qed.

Lemma Add_app m ps qs : Add (Add m ps) qs = Add m (ps ++ qs).
Proof.
  destruct (Add_fields m ps) as [Hh Hr].
  apply Map_eq.
  - destruct (Add_fields (Add m ps) qs) as [-> _].
    destruct (Add_fields m (ps ++ qs)) as [-> _]. done.
  - destruct (Add_fields (Add m ps) qs) as [_ ->].
    destruct (Add_fields m (ps ++ qs)) as [_ ->]. done.
  - rewrite !Add_keys, node_hashes_app, (node_hashes_ext m (Add m ps)) by done.
    apply sort_Ints_unique; [apply sort_Ints_sorted|].
    rewrite !sort_Ints_perm. by rewrite <- app_assoc.
  - unfold Add at 1 3. simpl. rewrite fold_left_app.
    apply add_keys_hashMap_ext; unfold Add; simpl; done.
Qed.

(** X4.  Only the order of the peers matters, not how they are grouped into
    calls of [Add]: adding them over several calls builds the same ring as
    one call with all of them. *)
Theorem ring_one_Add (r : Z) (h : option Hash) (adds : list (list string)) :
  ring r h adds = ring r h [concat adds].
Proof.
  unfold ring. simpl.
  assert (Hgen : ∀ m ps, fold_left Add adds (Add m ps) = Add m (ps ++ concat adds)).
  { induction adds as [|qs adds IH]; intros m ps; simpl.
    - by rewrite app_nil_r.
    - rewrite Add_app, IH. by rewrite <- app_assoc. }
  assert (Hnew : New r h = Add (New r h) []) by reflexivity.
  rewrite Hnew at 1. rewrite Hgen. simpl. done.
Qed.

(** X5.  Adding peers to a ring moves a key only to one of the new peers: every
    key keeps its peer or is now served by a peer of the last [Add]. *)
Theorem Add_moves_keys_to_new_peers_only (r : Z) (h : option Hash)
    (adds : list (list string)) (ps : list string) (key : string) :
  Get (Add (ring r h adds) ps) key = Get (ring r h adds) key ∨
  ∃ p, p ∈ ps ∧ Get (Add (ring r h adds) ps) key = Ok p.
Proof.
  set (m := ring r h adds).
  assert (Hsorted : StronglySorted Z.le (keys m)) by apply ring_sorted.
  destruct (Add_fields m ps) as [Hh Hr].
  assert (Hkeys : ∀ k, k ∈ keys (Add m ps) ↔ k ∈ keys m ∨ k ∈ node_hashes m ps).
  { intros k. by rewrite Add_keys, elem_of_sort_Ints, elem_of_app. }
  destruct (IsEmpty (Add m ps)) eqn:He'.
  { left. apply IsEmpty_keys in He'.
    assert (He : IsEmpty m = true).
    { apply IsEmpty_keys. destruct (keys m) as [|k ks] eqn:Hks; [done|].
      assert (Hk : k ∈ keys (Add m ps)) by (apply (proj2 (Hkeys k)); left; by left).

      rewrite He' in Hk. by apply elem_of_nil in Hk. }
    unfold Get. apply IsEmpty_keys in He'. by rewrite He, He'. }
  destruct (Get_sorted (Add m ps) key (Add_sorted m ps) He') as (hv' & Hown' & HGet').
  assert (Hcall : call_hash (Add m ps) (list_byte_of_string key)
                  = call_hash m (list_byte_of_string key)).
  { unfold call_hash. by rewrite Hh. }
  rewrite Hcall in Hown'.
  destruct (add_keys_hashMap ps m hv') as [Hnew Hold].
  change (hashMap (fold_left add_key ps m)) with (hashMap (Add m ps)) in Hnew, Hold.
  destruct (decide (hv' ∈ node_hashes m ps)) as [Hin|Hout].
  { right. destruct (Hnew Hin) as (q & Hq & Hlk). exists q. split; [done|].
    rewrite HGet'. unfold hashMap_at. by rewrite Hlk. }
  left. specialize (Hold Hout).
  assert (Hmem : hv' ∈ keys m).
  { destruct (proj1 (Hkeys hv') (proj1 Hown')) as [?|?]; done. }
  assert (He : IsEmpty m = false).
  { destruct (IsEmpty m) eqn:He; [|done]. apply IsEmpty_keys in He.
    rewrite He in Hmem. by apply elem_of_nil in Hmem. }
  destruct (Get_sorted m key Hsorted He) as (hv & Hown & HGet).
  assert (Hrestr : owner (keys m) (call_hash m (list_byte_of_string key)) hv').
  { split; [done|]. destruct Hown' as [_ [[Hle Hmin]|[Hall Hmin]]].
    - left. split; [done|]. intros x Hx. apply Hmin, Hkeys. by left.
    - right. split; intros x Hx; [apply Hall|apply Hmin]; apply Hkeys; by left. }
  assert (hv = hv') as -> by (by eapply (owner_unique (keys m) (keys m))).
  rewrite HGet, HGet'. unfold hashMap_at. by rewrite Hold.
Qed.

End consistenthash_facts.

Module p2pcache_facts.
Import p2pcache.

(** *** [ByteView.ReadAt] *)

(** C6.  [ReadAt] compares the offset with the length of the buffer [p], not
    with the length of the view.  Reading the 5-byte view ["hello"] at offset
    3 into a 2-byte buffer returns [(0, EOF)] and copies nothing, although
    bytes 3 and 4 are there to read; reading it at offset 7 into a 10-byte
    buffer panics in [SliceFrom] instead of returning [(0, EOF)]. *)
Theorem ReadAt_offset_against_buffer :
  Len hello = 5 ∧
  ReadAt hello (Some [x00; x00]) 3 = Ok (0, Some EOF, Some [x00; x00]) ∧
  ReadAt hello (Some (replicate 10 x00)) 7 = Panic.
Proof. repeat split. Qed.

(** Where the offset is within both the buffer and the view, [ReadAt] does
    copy from position [off]. *)
Example ReadAt_in_range :
  ReadAt hello (Some [x00; x00; x00; x00]) 3
  = Ok (2, Some EOF, Some ["l"%byte; "o"%byte; x00; x00]).
Proof. reflexivity. Qed.

Lemma ReadAt_negative v p off :
  off < 0 → ReadAt v p off = Ok (0, Some (errors_New "byteview: invalid offset"), p).
Proof. intros Hoff. unfold ReadAt. destruct (Z.ltb_spec off 0); [done|lia]. Qed.

(** The two ways in which the test against the buffer goes wrong, in
    general: an offset at or past the end of the buffer reads nothing, however
    long the view is, and an offset inside the buffer but past the end of the
    view panics. *)
Lemma ReadAt_past_buffer v p off :
  0 ≤ off → len (data p) ≤ off → ReadAt v p off = Ok (0, Some EOF, p).
Proof.
  intros H0 Hp. unfold ReadAt.
  destruct (Z.ltb_spec off 0); [lia|].
  destruct (Z.geb_spec off (len (data p))); [done|lia].
Qed.

Lemma ReadAt_past_view v p off :
  0 ≤ off → off < len (data p) → Len v < off → ReadAt v p off = Panic.
Proof.
  intros H0 Hp Hv. unfold ReadAt.
  destruct (Z.ltb_spec off 0); [lia|].
  destruct (Z.geb_spec off (len (data p))); [lia|].
  unfold SliceFrom, Len, slice_from in *.
  destruct (b v) as [q|].
  - destruct (Z.ltb_spec off 0); [lia|]. simpl.
    destruct (Z.ltb_spec (len q) off); [done|lia].
  - destruct (Z.ltb_spec off 0); [lia|]. simpl.
    destruct (Z.ltb_spec (len (list_byte_of_string (s v))) off); [done|lia].
Qed.

(** *** The truncating sink *)

Lemma length_data_copy d src : length (data (copy d src).2) = length (data d).
Proof.
  destruct d as [l|]; simpl; [|done]. unfold len.
  rewrite length_app, length_take, length_drop. lia.
Qed.

Lemma copy_and_shrink_data d src :
  data (truncBytesSink.copy_and_shrink d src) = take (length (data d)) src.
Proof.
  destruct d as [l|]; cycle 1.
  { unfold truncBytesSink.copy_and_shrink, copy. simpl.
    by destruct (Z.min (len []) (len src) <? len []). }
  unfold truncBytesSink.copy_and_shrink, copy.
  cbn [data default fmap option_fmap option_map]. unfold id.
  set (n := Z.to_nat (Z.min (len l) (len src))).
  assert (Hn : n = Nat.min (length l) (length src)) by (unfold n, len; lia).
  assert (Hlen : length (take n src ++ drop n l) = length l).
  { rewrite length_app, length_take, length_drop. lia. }
  unfold len at 3. rewrite Hlen.
  destruct (Z.ltb_spec (Z.min (len l) (len src)) (Z.of_nat (length l))) as [Hlt|Hge];
    cbn [data default fmap option_fmap option_map]; unfold id, len in *.
  - rewrite take_app_le by (rewrite length_take; lia).
    rewrite take_take. rewrite !take_ge by lia. done.
  - assert (n = length l) as -> by lia.
    by rewrite drop_all, app_nil_r.
Qed.

Lemma trunc_dst_spec (d : slice) (x : list byte) :
  let d' := truncBytesSink.copy_and_shrink d x in
  len (data d') ≤ len (data d) ∧
  (len x < len (data d) → len (data d') = len x ∧ data d' = x) ∧
  (len (data d) ≤ len x → data d' = take (length (data d)) x).
Proof.
  cbv zeta. rewrite copy_and_shrink_data. unfold len.
  rewrite length_take. split; [lia|]. split.
  - intros Hlt. split; [lia|]. apply take_ge. lia.
  - done.
Qed.

(** C5.  The truncating sink, with a destination slice [d] and in any
    state.  [SetBytes], [SetString] and [SetProto] return without panic, and
    after the call the destination is never longer than [d] was.  A call
    that delivers an input ([SetBytes], [SetString], and [SetProto] when the
    message encodes) returns no error; when the input is shorter than [d] the
    destination then has the length and the contents of the input, and
    otherwise it holds exactly the first [len(d)] bytes of the input.  A
    [SetProto] whose message does not encode returns an error and leaves the
    sink, and so the destination, as it was. *)
Theorem trunc_never_grows `{Proto} (d : slice) (v0 : ByteView) (c : call) :
  ∃ err sk' d',
    do_call c (truncBytesSink_ {| truncBytesSink.dst := Some d; truncBytesSink.v := v0 |})
      = Ok (err, truncBytesSink_ sk') ∧
    truncBytesSink.dst sk' = Some d' ∧
    len (data d') ≤ len (data d) ∧
    match input c with
    | Some x =>
        err = None ∧
        (len x < len (data d) → len (data d') = len x ∧ data d' = x) ∧
        (len (data d) ≤ len x → data d' = take (length (data d)) x)
    | None =>
        is_Some err ∧
        sk' = {| truncBytesSink.dst := Some d; truncBytesSink.v := v0 |}
    end.
Proof.
  destruct c as [m|p|x]; simpl; unfold as_sink.
  - unfold truncBytesSink.SetProto. destruct (Marshal m) as [p [e|]]; simpl.
    + eexists (Some e), _, d. split; [done|]. split; [done|]. split; [lia|].
      split; [by eexists|done].
    + destruct (trunc_dst_spec d (data p)) as (Hle & Hshort & Hlong).
      eexists None, _, _. split; [done|]. split; [done|]. by split.
  - destruct (trunc_dst_spec d (data p)) as (Hle & Hshort & Hlong).
    eexists None, _, _. split; [done|]. split; [done|]. by split.
  - destruct (trunc_dst_spec d (list_byte_of_string x)) as (Hle & Hshort & Hlong).
    eexists None, _, _. split; [done|]. split; [done|]. by split.
Qed.

Lemma trunc_never_grows_witness :
  let d : slice := Some (replicate 10 x00) in
  let src : slice := Some ["a"; "b"; "c"; "d"]%byte in
  ∃ err sk' d',
    @do_call raw_proto (call_SetBytes src)
       (truncBytesSink_ {| truncBytesSink.dst := Some d; truncBytesSink.v := ByteView_zero |})
      = Ok (err, @truncBytesSink_ raw_proto sk') ∧
    truncBytesSink.dst sk' = Some d' ∧
    len (data d') ≤ len (data d) ∧
    err = None ∧
    (len (data src) < len (data d) → len (data d') = len (data src) ∧ data d' = data src) ∧
    (len (data d) ≤ len (data src) → data d' = take (length (data d)) (data src)).
Proof.
  exact (@trunc_never_grows raw_proto (Some (replicate 10 x00)) ByteView_zero
           (@call_SetBytes raw_proto (Some ["a"; "b"; "c"; "d"]%byte))).
Defined.

(** *** Round trip through a sink *)

(** C4.  For each of the five sinks, built by its constructor on a valid
    destination: after a successful [SetBytes], [SetString] or [SetProto],
    [view] returns (without error) a [ByteView] whose bytes are the input
    (for [SetProto], the encoding of the message). *)
Theorem Set_view_roundtrip `{Proto} (d : dest) (c : call) (sink sink' : Sink) :
  valid_dest d = true →
  NewSink d = Ok sink →
  do_call c sink = Ok (None, sink') →
  ∃ bv, view sink' = Ok (bv, None) ∧ input c = Some (content bv).
Proof.
  intros Hvalid Hnew Hcall.
  destruct d as [[x0|]|[bv0|]|m0|[d0|]|[d0|]]; simpl in Hvalid; try done;
    simpl in Hnew; injection Hnew as <-.
  - (* stringSink *)
    destruct c as [m|p|x]; simpl in *; unfold as_sink in Hcall.
    + unfold stringSink.SetProto in Hcall.
      destruct (Marshal m) as [p [e|]]; simpl in Hcall; [done|].
      injection Hcall as <-. eexists. split; [done|]. by destruct p.
    + injection Hcall as <-. eexists. split; [done|].
      unfold content; simpl. by rewrite list_byte_of_string_of_list_byte.
    + injection Hcall as <-. eexists. split; [done|]. done.
  - (* byteViewSink *)
    destruct c as [m|p|x]; simpl in *; unfold as_sink in Hcall.
    + unfold byteViewSink.SetProto in Hcall.
      destruct (Marshal m) as [p [e|]]; simpl in Hcall; [done|].
      injection Hcall as <-. eexists. split; [done|]. by destruct p.
    + injection Hcall as <-. eexists. split; [done|]. done.
    + injection Hcall as <-. eexists. split; [done|]. done.
  - (* protoSink *)
    destruct c as [m|p|x]; simpl in *; unfold as_sink in Hcall.
    + unfold protoSink.SetProto in Hcall.
      destruct (Marshal m) as [p [e|]]; simpl in Hcall; [done|].
      destruct (Unmarshal (data p) m0) as [[dst' [e|]]|]; simpl in Hcall; try done.
      injection Hcall as <-. eexists. split; [done|]. by destruct p.
    + unfold protoSink.SetBytes in Hcall. simpl in Hcall.
      destruct (Unmarshal (data p) m0) as [[dst' [e|]]|]; simpl in Hcall; try done.
      injection Hcall as <-. eexists. split; [done|]. done.
    + unfold protoSink.SetString in Hcall. simpl in Hcall.
      destruct (Unmarshal (list_byte_of_string x) m0) as [[dst' [e|]]|]; simpl in Hcall; try done.
      injection Hcall as <-. eexists. split; [done|]. done.
  - (* allocBytesSink *)
    destruct c as [m|p|x]; simpl in *; unfold as_sink in Hcall.
    + unfold allocBytesSink.SetProto in Hcall.
      destruct (Marshal m) as [p [e|]]; simpl in Hcall; [done|].
      injection Hcall as <-. eexists. split; [done|]. by destruct p.
    + injection Hcall as <-. eexists. split; [done|]. done.
    + injection Hcall as <-. eexists. split; [done|]. done.
  - (* truncBytesSink *)
    destruct c as [m|p|x]; simpl in *; unfold as_sink in Hcall.
    + unfold truncBytesSink.SetProto in Hcall.
      destruct (Marshal m) as [p [e|]]; simpl in Hcall; [done|].
      injection Hcall as <-. eexists. split; [done|]. by destruct p.
    + injection Hcall as <-. eexists. split; [done|]. done.
    + injection Hcall as <-. eexists. split; [done|]. done.
Qed.

Lemma Set_view_roundtrip_witness :
  let sink : @Sink raw_proto := stringSink_ (StringSink (Some ""%string)) in
  let sink' : @Sink raw_proto :=
    stringSink_ {| stringSink.str := Some "hello"%string; stringSink.v := hello |} in
  @valid_dest raw_proto (to_string (Some ""%string)) = true ∧
  @NewSink raw_proto (to_string (Some ""%string)) = Ok sink ∧
  do_call (call_SetString "hello") sink = Ok (None, sink') ∧
  ∃ bv, view sink' = Ok (bv, None) ∧
        @input raw_proto (call_SetString "hello") = Some (content bv).
Proof.
  cbv zeta. split; [reflexivity|]. split; [reflexivity|]. split; [reflexivity|].
  apply (@Set_view_roundtrip raw_proto (@to_string raw_proto (Some ""%string))
           (@call_SetString raw_proto "hello")
           (stringSink_ (StringSink (Some ""%string)))); reflexivity.
Defined.

(** On a string sink that is used a second time, [SetProto] leaves the text
    of the first call in the mirror when the encoding is the nil slice. *)
Example stringSink_second_call :
  let sink : @Sink nil_proto := stringSink_ (StringSink (Some ""%string)) in
  (sink1 ← (r ← SetString sink "abc"; Ok r.2);
   sink2 ← (r ← SetProto sink1 (tt : @Message nil_proto); Ok r.2);
   r ← view sink2; Ok (content r.1))
  = Ok ["a"; "b"; "c"]%byte.
Proof. reflexivity. Qed.

(** *** Nil destinations *)

(** C8, as the code has it.  On an allocating or a truncating slice sink
    built on a nil destination, every [SetBytes], [SetString] and [SetProto]
    returns an error (the nil-destination error, or the encoding error of
    [SetProto]) and leaves the sink, and so its mirror, as constructed:
    [view] still returns the zero [ByteView].  [ByteViewSink] panics on a nil
    destination. *)
Theorem nil_slice_dst_is_an_error `{Proto} (c : call) :
  let alloc := allocBytesSink_ (AllocatingByteSliceSink None) in
  let trunc := truncBytesSink_ (TruncatingByteSliceSink None) in
  NewSink (to_alloc None) = Ok alloc ∧
  do_call c alloc = Ok (Some (nil_dst_error c allocBytesSink.nil_dst), alloc) ∧
  view alloc = Ok (ByteView_zero, None) ∧
  NewSink (to_trunc None) = Ok trunc ∧
  do_call c trunc = Ok (Some (nil_dst_error c truncBytesSink.nil_dst), trunc) ∧
  view trunc = Ok (ByteView_zero, None) ∧
  NewSink (to_ByteView None) = Panic.
Proof.
  cbv zeta. repeat split; destruct c as [m|p|x]; simpl; try done.
  - unfold as_sink, allocBytesSink.SetProto. by destruct (Marshal m) as [p [e|]].
  - unfold as_sink, truncBytesSink.SetProto. by destruct (Marshal m) as [p [e|]].
Qed.

(** C8, as stated, fails: a string sink built on a nil pointer does not
    return an error from [SetString], [SetBytes] or [SetProto]; it panics on
    the store through the nil pointer. *)
Lemma nil_string_dst_panics :
  let sink : @Sink raw_proto := stringSink_ (StringSink None) in
  @NewSink raw_proto (to_string None) = Ok sink ∧
  SetString sink "x" = Panic ∧
  SetBytes sink (Some ["x"%byte]) = Panic ∧
  SetProto sink (["x"%byte] : @Message raw_proto) = Panic ∧
  ¬ ∃ e sink', SetString sink "x" = Ok (Some e, sink').
Proof.
  cbv zeta. repeat split. intros (e & sink' & Heq). discriminate Heq.
Qed.

(** *** Further properties of [ByteView] *)

Lemma list_byte_of_string_inj x y :
  list_byte_of_string x = list_byte_of_string y → x = y.
Proof.
  intros Heq. rewrite <- (string_of_list_byte_of_string x),
    <- (string_of_list_byte_of_string y). by rewrite Heq.
Qed.

Lemma string_of_list_byte_inj l k :
  string_of_list_byte l = string_of_list_byte k → l = k.
Proof.
  intros Heq. rewrite <- (list_byte_of_string_of_list_byte l),
    <- (list_byte_of_string_of_list_byte k). by rewrite Heq.
Qed.

Lemma Len_content v : Len v = len (content v).
Proof. unfold Len, content, ByteSlice. by destruct (b v). Qed.

(** X6.  Whether a view wraps a byte slice or a string cannot be told from its
    accessors: [Len], [String], [ByteSlice] and [At] all answer for the
    bytes the view stands for, and [At] panics exactly outside
    [0 <= i < Len]. *)
Theorem accessors_agree (v : ByteView) (i : Z) :
  Len v = len (content v) ∧
  String v = string_of_list_byte (content v) ∧
  ByteSlice v = Some (content v) ∧
  At v i = index (content v) i ∧
  (At v i = Panic ↔ i < 0 ∨ Len v ≤ i).
Proof.
  split; [apply Len_content|].
  split; [unfold String, content, ByteSlice; destruct (b v); simpl;
          by rewrite ?string_of_list_byte_of_string|].
  split; [unfold content, ByteSlice; by destruct (b v)|].
  assert (HAt : At v i = index (content v) i).
  { unfold At, content, ByteSlice. by destruct (b v). }
  split; [done|]. rewrite HAt, Len_content. unfold index, len.
  destruct (Z.ltb_spec i 0) as [Hneg|Hpos]; [split; [by left|done]|].
  destruct (content v !! Z.to_nat i) as [c|] eqn:Hlk.
  - apply lookup_lt_Some in Hlk. split; [done|lia].
  - apply lookup_ge_None in Hlk. split; [intros _; right; lia|done].
Qed.

Lemma copy_spec dst src :
  (copy dst src).1 = Z.min (len (data dst)) (len src) ∧
  data (copy dst src).2
  = take (Z.to_nat (copy dst src).1) src ++ drop (Z.to_nat (copy dst src).1) (data dst).
Proof.
  unfold copy. simpl. split; [done|]. destruct dst as [d|]; simpl; [done|].
  unfold len. simpl. rewrite Z.min_l by lia. done.
Qed.

(** X7.  [Copy] overwrites the first [min(len(dst), Len)] bytes of [dst] with the
    first bytes of the view, returns that number and leaves the rest and the
    length of [dst] as they were. *)
Theorem Copy_spec (v : ByteView) (dst : slice) :
  let n := (Copy v dst).1 in
  let dst' := (Copy v dst).2 in
  n = Z.min (len (data dst)) (Len v) ∧
  len (data dst') = len (data dst) ∧
  take (Z.to_nat n) (data dst') = take (Z.to_nat n) (content v) ∧
  drop (Z.to_nat n) (data dst') = drop (Z.to_nat n) (data dst).
Proof.
  cbv zeta.
  assert (HCopy : Copy v dst = copy dst (content v)).
  { unfold Copy, content, ByteSlice. by destruct (b v). }
  rewrite HCopy, Len_content. destruct (copy_spec dst (content v)) as [Hn Hd].
  split; [done|]. split; [unfold len; by rewrite length_data_copy|].
  rewrite Hd. set (k := Z.to_nat (copy dst (content v)).1).
  assert (Hk : (k ≤ length (content v))%nat ∧ (k ≤ length (data dst))%nat).
  { unfold k. rewrite Hn. unfold len. lia. }
  assert (Hlen : length (take k (content v)) = k) by (rewrite length_take; lia).
  split.
  - rewrite take_app_le by lia. rewrite take_take. f_equal. lia.
  - rewrite drop_app_length'; done.
Qed.

Lemma SliceFrom_content v from :
  match SliceFrom v from with
  | Ok v' => 0 ≤ from ≤ Len v ∧ content v' = drop (Z.to_nat from) (content v)
  | Panic => from < 0 ∨ Len v < from
  end.
Proof.
  rewrite Len_content. unfold SliceFrom, content, ByteSlice, slice_from.
  destruct (b v) as [p|]; simpl.
  - destruct (Z.ltb_spec from 0); simpl; [by left|].
    destruct (Z.ltb_spec (len p) from); simpl; [by right|]. split; [lia|done].
  - destruct (Z.ltb_spec from 0); simpl; [by left|].
    destruct (Z.ltb_spec (len (list_byte_of_string (s v))) from); simpl; [by right|].
    split; [lia|]. by rewrite list_byte_of_string_of_list_byte.
Qed.

(** X8.  [SliceFrom] panics exactly when [from] is outside
    [0 <= from <= Len]; otherwise the result stands for the bytes of the view
    from position [from] on. *)
Theorem SliceFrom_spec (v : ByteView) (from : Z) :
  match SliceFrom v from with
  | Ok v' => 0 ≤ from ≤ Len v ∧ content v' = drop (Z.to_nat from) (content v)
  | Panic => from < 0 ∨ Len v < from
  end.
Proof. apply SliceFrom_content. Qed.

(** X9.  With the offset inside both the buffer and the view, [ReadAt] copies
    [min(len(p), Len - off)] bytes of the view from position [off] on to the
    front of [p], returns that number, and reports [io.EOF] exactly when the
    buffer was not filled. *)
Theorem ReadAt_within (v : ByteView) (p : slice) (off : Z) :
  0 ≤ off → off < len (data p) → off ≤ Len v →
  let n := Z.min (len (data p)) (Len v - off) in
  ∃ p', ReadAt v p off
        = Ok (n, (if n <? len (data p) then Some EOF else None), Some p') ∧
        p' = take (Z.to_nat n) (drop (Z.to_nat off) (content v))
             ++ drop (Z.to_nat n) (data p).
Proof.
  intros H0 Hp Hv n. unfold ReadAt.
  destruct (Z.ltb_spec off 0); [lia|].
  destruct (Z.geb_spec off (len (data p))); [lia|].
  pose proof (SliceFrom_content v off) as Hslice.
  destruct (SliceFrom v off) as [v'|]; [|lia]. destruct Hslice as [_ Hv'].
  cbn [outcome_bind mbind].
  assert (HCopy : Copy v' p = copy p (content v')).
  { unfold Copy, content, ByteSlice. by destruct (b v'). }
  assert (Hlen : len (content v') = Len v - off).
  { rewrite Hv', Len_content. unfold len. rewrite length_drop.
    rewrite Len_content in Hv. unfold len in Hv. lia. }
  destruct p as [d|]; [|unfold len in Hp; simpl in Hp; lia].
  rewrite HCopy. unfold copy. rewrite Hlen. fold n.
  cbn [fmap option_fmap option_map data default]. rewrite Hv'.
  eexists. split; reflexivity.
Qed.

Lemma ReadAt_within_witness :
  0 ≤ 3 ∧ 3 < len (data (Some (replicate 4 x00))) ∧ 3 ≤ Len hello ∧
  ∃ p', ReadAt hello (Some (replicate 4 x00)) 3 = Ok (2, Some EOF, Some p') ∧
        p' = ["l"; "o"]%byte ++ [x00; x00].
Proof.
  split; [done|]. split; [done|]. split; [done|].
  apply (ReadAt_within hello (Some (replicate 4 x00)) 3); done.
Defined.

Lemma range_all_eq (l1 : list byte) : ∀ (pre l2 : list byte),
  length l1 = length l2 →
  ∃ r, range_all (λ i x, c ← index (pre ++ l2) i; Ok (Byte.eqb x c)) (len pre) l1 = Ok r ∧
       (r = true ↔ l1 = l2).
Proof.
  induction l1 as [|x l1 IH]; intros pre [|y l2] Hlen; simpl in Hlen; try done.
  { exists true. by split. }
  simpl.
  assert (Hidx : index (pre ++ y :: l2) (len pre) = Ok y).
  { unfold index, len. destruct (Z.ltb_spec (Z.of_nat (length pre)) 0); [lia|].
    rewrite Nat2Z.id. by rewrite list_lookup_middle. }
  rewrite Hidx. cbn [outcome_bind mbind].
  destruct (Byte.eqb x y) eqn:Hxy.
  - apply Byte.byte_dec_bl in Hxy as ->.
    destruct (IH (pre ++ [y]) l2) as (r & Hr & Hiff); [lia|].
    rewrite <- app_assoc in Hr. simpl in Hr.
    replace (len (pre ++ [y])) with (len pre + 1) in Hr
      by (unfold len; rewrite length_app; simpl; lia).
    exists r. split; [done|]. rewrite Hiff. split; [by intros ->|by intros [= ->]].
  - exists false. split; [done|]. split; [done|]. intros [= -> _].
    by rewrite (Byte.byte_dec_lb eq_refl) in Hxy.
Qed.

Lemma range_all_eq_sym (l1 : list byte) : ∀ (pre l2 : list byte),
  length l1 = length l2 →
  ∃ r, range_all (λ i x, c ← index (pre ++ l2) i; Ok (Byte.eqb c x)) (len pre) l1 = Ok r ∧
       (r = true ↔ l2 = l1).
Proof.
  induction l1 as [|x l1 IH]; intros pre [|y l2] Hlen; simpl in Hlen; try done.
  { exists true. by split. }
  simpl.
  assert (Hidx : index (pre ++ y :: l2) (len pre) = Ok y).
  { unfold index, len. destruct (Z.ltb_spec (Z.of_nat (length pre)) 0); [lia|].
    rewrite Nat2Z.id. by rewrite list_lookup_middle. }
  rewrite Hidx. cbn [outcome_bind mbind].
  destruct (Byte.eqb y x) eqn:Hxy.
  - apply Byte.byte_dec_bl in Hxy as ->.
    destruct (IH (pre ++ [x]) l2) as (r & Hr & Hiff); [lia|].
    rewrite <- app_assoc in Hr. simpl in Hr.
    replace (len (pre ++ [x])) with (len pre + 1) in Hr
      by (unfold len; rewrite length_app; simpl; lia).
    exists r. split; [done|]. rewrite Hiff. split; [by intros ->|by intros [= ->]].
  - exists false. split; [done|]. split; [done|]. intros [= -> _].
    by rewrite (Byte.byte_dec_lb eq_refl) in Hxy.
Qed.

Lemma EqualString_spec v str :
  ∃ r, EqualString v str = Ok r ∧ (r = true ↔ content v = list_byte_of_string str).
Proof.
  unfold EqualString, Len, content, ByteSlice. destruct (b v) as [p|]; simpl.
  - destruct (Z.eqb_spec (len p) (len (list_byte_of_string str))) as [Hlen|Hlen]; simpl.
    + apply (range_all_eq p [] (list_byte_of_string str)). unfold len in Hlen. lia.
    + exists false. split; [done|]. split; [done|]. intros ->. done.
  - eexists. split; [done|]. rewrite String.eqb_eq. split; [by intros ->|].
    apply list_byte_of_string_inj.
Qed.

Lemma EqualBytes_spec v p :
  ∃ r, EqualBytes v p = Ok r ∧ (r = true ↔ content v = data p).
Proof.
  unfold EqualBytes, bytes_Equal, Len, content, ByteSlice. destruct (b v) as [q|]; simpl.
  - eexists. split; [done|]. rewrite String.eqb_eq. split; [|by intros ->].
    apply string_of_list_byte_inj.
  - destruct (Z.eqb_spec (len (list_byte_of_string (s v))) (len (data p))) as [Hlen|Hlen]; simpl.
    + apply (range_all_eq_sym (data p) [] (list_byte_of_string (s v))).
      unfold len in Hlen. lia.
    + exists false. split; [done|]. split; [done|]. intros Heq. by rewrite Heq in Hlen.
Qed.

(** X10.  [Equal], [EqualString] and [EqualBytes] never panic, and return true
    exactly when the two sides stand for the same bytes, whichever way each
    side is represented. *)
Theorem Equal_spec (v bv2 : ByteView) (str : string) (p : slice) :
  (∃ r, Equal v bv2 = Ok r ∧ (r = true ↔ content v = content bv2)) ∧
  (∃ r, EqualString v str = Ok r ∧ (r = true ↔ content v = list_byte_of_string str)) ∧
  (∃ r, EqualBytes v p = Ok r ∧ (r = true ↔ content v = data p)).
Proof.
  split; [|split; [apply EqualString_spec|apply EqualBytes_spec]].
  unfold Equal. unfold content at 2. unfold ByteSlice. destruct (b bv2) as [q|].
  - apply (EqualBytes_spec v (Some q)).
  - apply EqualString_spec.
Qed.

(** *** Further properties of the sinks *)

(** X11.  For each of the five sinks, built by its constructor on a valid
    destination: after a successful [setSinkView], [view] returns a
    [ByteView] that stands for the same bytes as the one given; the
    [ByteView] sink and the allocating sink return the given view itself. *)
Theorem setSinkView_roundtrip `{Proto} (d : dest) (v : ByteView) (sink sink' : Sink) :
  valid_dest d = true →
  NewSink d = Ok sink →
  setSinkView sink v = Ok (None, sink') →
  ∃ bv, view sink' = Ok (bv, None) ∧ content bv = content v ∧
        match d with to_ByteView _ | to_alloc _ => bv = v | _ => True end.
Proof.
  intros Hvalid Hnew Hcall.
  destruct d as [[x0|]|[bv0|]|m0|[d0|]|[d0|]]; simpl in Hvalid; try done;
    simpl in Hnew; injection Hnew as <-; simpl in Hcall; unfold as_sink in Hcall.
  - destruct v as [[q|] x]; simpl in Hcall; injection Hcall as <-;
      (eexists; split; [done|]; split; [|done]); unfold content; simpl; [|done].
    by rewrite list_byte_of_string_of_list_byte.
  - injection Hcall as <-. by eexists.
  - destruct v as [[q|] x]; simpl in Hcall.
    + unfold protoSink.SetBytes in Hcall. simpl in Hcall.
      destruct (Unmarshal q m0) as [[dst' [e|]]|]; simpl in Hcall; try done.
      injection Hcall as <-. by eexists.
    + unfold protoSink.SetString in Hcall. simpl in Hcall.
      destruct (Unmarshal (list_byte_of_string x) m0) as [[dst' [e|]]|];
        simpl in Hcall; try done.
      injection Hcall as <-. by eexists.
  - injection Hcall as <-. by eexists.
  - destruct v as [[q|] x]; simpl in Hcall; injection Hcall as <-; by eexists.
Qed.

Lemma setSinkView_roundtrip_witness :
  let sink : @Sink raw_proto := allocBytesSink_ (AllocatingByteSliceSink (Some None)) in
  let sink' : @Sink raw_proto :=
    allocBytesSink_ {| allocBytesSink.dst := Some (Some ["h"; "e"; "l"; "l"; "o"]%byte);
                       allocBytesSink.v := hello |} in
  @valid_dest raw_proto (to_alloc (Some None)) = true ∧
  @NewSink raw_proto (to_alloc (Some None)) = Ok sink ∧
  setSinkView sink hello = Ok (None, sink') ∧
  ∃ bv, view sink' = Ok (bv, None) ∧ content bv = content hello ∧ bv = hello.
Proof.
  cbv zeta. split; [reflexivity|]. split; [reflexivity|]. split; [reflexivity|].
  apply (@setSinkView_roundtrip raw_proto (@to_alloc raw_proto (Some None)) hello
           (allocBytesSink_ (AllocatingByteSliceSink (Some None)))); reflexivity.
Defined.

(** X12.  On a nil destination [setSinkView] does not behave as the setters do:
    the allocating sink, whose [setView] stores through the pointer without
    the nil test of [SetBytes] and [SetString], panics, while the truncating
    sink returns its nil-destination error and stays as constructed. *)
Theorem setSinkView_nil_dst `{Proto} (v : ByteView) :
  let alloc := allocBytesSink_ (AllocatingByteSliceSink None) in
  let trunc := truncBytesSink_ (TruncatingByteSliceSink None) in
  setSinkView alloc v = Panic ∧
  (∃ e, SetBytes alloc (b v) = Ok (Some e, alloc)) ∧
  setSinkView trunc v = Ok (Some truncBytesSink.nil_dst, trunc).
Proof.
  cbv zeta. split; [done|]. split; [by eexists|].
  simpl. by destruct (b v).
Qed.

(** X13.  A setter that returns an error leaves the cached view of the sink as it
    was: [view] answers as before the call, for every sink in any state. *)
Theorem failed_call_keeps_view `{Proto} (c : call) (sink sink' : Sink) (e : error) :
  do_call c sink = Ok (Some e, sink') → view sink' = view sink.
Proof.
  intros Hcall.
  destruct sink as [sk|sk|sk|sk|sk], c as [m|p|x]; simpl in Hcall; unfold as_sink in Hcall.
  - unfold stringSink.SetProto in Hcall.
    destruct (Marshal m) as [p [e'|]]; simpl in Hcall; [by injection Hcall as _ <-|].
    by destruct (stringSink.str sk).
  - unfold stringSink.SetBytes, stringSink.SetString in Hcall.
    by destruct (stringSink.str sk).
  - unfold stringSink.SetString in Hcall. by destruct (stringSink.str sk).
  - unfold byteViewSink.SetProto in Hcall.
    destruct (Marshal m) as [p [e'|]]; simpl in Hcall; [by injection Hcall as _ <-|].
    by destruct (byteViewSink.dst sk).
  - unfold byteViewSink.SetBytes in Hcall. by destruct (byteViewSink.dst sk).
  - unfold byteViewSink.SetString in Hcall. by destruct (byteViewSink.dst sk).
  - unfold protoSink.SetProto in Hcall.
    destruct (Marshal m) as [p [e'|]]; simpl in Hcall; [by injection Hcall as _ <-|].
    destruct (Unmarshal (data p) (protoSink.dst sk)) as [[dst' [e'|]]|];
      simpl in Hcall; try done. by injection Hcall as _ <-.
  - unfold protoSink.SetBytes in Hcall.
    destruct (Unmarshal (data p) (protoSink.dst sk)) as [[dst' [e'|]]|];
      simpl in Hcall; try done. by injection Hcall as _ <-.
  - unfold protoSink.SetString in Hcall. simpl in Hcall.
    destruct (Unmarshal (list_byte_of_string x) (protoSink.dst sk)) as [[dst' [e'|]]|];
      simpl in Hcall; try done. by injection Hcall as _ <-.
  - unfold allocBytesSink.SetProto, allocBytesSink.setBytesOwned in Hcall.
    destruct (Marshal m) as [p [e'|]]; simpl in Hcall; [by injection Hcall as _ <-|].
    destruct (allocBytesSink.dst sk); simpl in Hcall; [done|]. by injection Hcall as _ <-.
  - unfold allocBytesSink.SetBytes, allocBytesSink.setBytesOwned in Hcall.
    destruct (allocBytesSink.dst sk); simpl in Hcall; [done|]. by injection Hcall as _ <-.
  - unfold allocBytesSink.SetString in Hcall.
    destruct (allocBytesSink.dst sk); simpl in Hcall; [done|]. by injection Hcall as _ <-.
  - unfold truncBytesSink.SetProto, truncBytesSink.setBytesOwned in Hcall.
    destruct (Marshal m) as [p [e'|]]; simpl in Hcall; [by injection Hcall as _ <-|].
    destruct (truncBytesSink.dst sk); simpl in Hcall; [done|]. by injection Hcall as _ <-.
  - unfold truncBytesSink.SetBytes, truncBytesSink.setBytesOwned in Hcall.
    destruct (truncBytesSink.dst sk); simpl in Hcall; [done|]. by injection Hcall as _ <-.
  - unfold truncBytesSink.SetString in Hcall.
    destruct (truncBytesSink.dst sk); simpl in Hcall; [done|]. by injection Hcall as _ <-.
Qed.

Lemma failed_call_keeps_view_witness :
  let sink : @Sink raw_proto :=
    stringSink_ {| stringSink.str := Some "hello"%string; stringSink.v := hello |} in
  do_call (call_SetProto (["!"%byte] : @Message raw_proto)) sink
    = Ok (Some (proto_error "cannot encode"), sink) ∧
  view sink = view sink.
Proof.
  cbv zeta. split; [reflexivity|].
  apply (@failed_call_keeps_view raw_proto
           (@call_SetProto raw_proto ["!"%byte])
           (stringSink_ {| stringSink.str := Some "hello"%string; stringSink.v := hello |})
           (stringSink_ {| stringSink.str := Some "hello"%string; stringSink.v := hello |})
           (proto_error "cannot encode")).
  reflexivity.
Defined.

(** X14.  After a successful [SetBytes], [SetString] or [SetProto] on a string,
    [ByteView] or allocating sink, in any state, the caller's destination
    holds exactly the bytes given (for [SetProto], the encoding). *)
Theorem Set_fills_destination `{Proto} (c : call) (sink sink' : Sink) :
  replaces_dest sink = true →
  do_call c sink = Ok (None, sink') →
  dest_content sink' = input c.
Proof.
  intros Hkind Hcall.
  destruct sink as [sk|sk|sk|sk|sk]; simpl in Hkind; try done;
    destruct c as [m|p|x]; simpl in Hcall |- *; unfold as_sink in Hcall.
  - unfold stringSink.SetProto in Hcall.
    destruct (Marshal m) as [p [e'|]]; simpl in Hcall; [done|].
    destruct (stringSink.str sk); simpl in Hcall; [|done]. injection Hcall as <-.
    simpl. by rewrite list_byte_of_string_of_list_byte.
  - unfold stringSink.SetBytes, stringSink.SetString in Hcall.
    destruct (stringSink.str sk); simpl in Hcall; [|done]. injection Hcall as <-.
    simpl. by rewrite list_byte_of_string_of_list_byte.
  - unfold stringSink.SetString in Hcall.
    destruct (stringSink.str sk); simpl in Hcall; [|done]. by injection Hcall as <-.
  - unfold byteViewSink.SetProto in Hcall.
    destruct (Marshal m) as [p [e'|]]; simpl in Hcall; [done|].
    destruct (byteViewSink.dst sk); simpl in Hcall; [|done]. injection Hcall as <-.
    by destruct p.
  - unfold byteViewSink.SetBytes in Hcall.
    destruct (byteViewSink.dst sk); simpl in Hcall; [|done]. by injection Hcall as <-.
  - unfold byteViewSink.SetString in Hcall.
    destruct (byteViewSink.dst sk); simpl in Hcall; [|done]. by injection Hcall as <-.
  - unfold allocBytesSink.SetProto, allocBytesSink.setBytesOwned in Hcall.
    destruct (Marshal m) as [p [e'|]]; simpl in Hcall; [done|].
    destruct (allocBytesSink.dst sk); simpl in Hcall; [|done]. by injection Hcall as <-.
  - unfold allocBytesSink.SetBytes, allocBytesSink.setBytesOwned in Hcall.
    destruct (allocBytesSink.dst sk); simpl in Hcall; [|done]. by injection Hcall as <-.
  - unfold allocBytesSink.SetString in Hcall.
    destruct (allocBytesSink.dst sk); simpl in Hcall; [|done]. by injection Hcall as <-.
Qed.

Lemma Set_fills_destination_witness :
  let sink : @Sink raw_proto :=
    stringSink_ {| stringSink.str := Some "old"%string; stringSink.v := hello |} in
  let sink' : @Sink raw_proto :=
    stringSink_ {| stringSink.str := Some "ab"%string;
                   stringSink.v := {| b := Some ["a"; "b"]%byte; s := "hello" |} |} in
  replaces_dest sink = true ∧
  do_call (call_SetProto (["a"; "b"]%byte : @Message raw_proto)) sink = Ok (None, sink') ∧
  dest_content sink' = @input raw_proto (@call_SetProto raw_proto ["a"; "b"]%byte).
Proof.
  cbv zeta. split; [reflexivity|]. split; [reflexivity|].
  apply (@Set_fills_destination raw_proto (@call_SetProto raw_proto ["a"; "b"]%byte)
           (stringSink_ {| stringSink.str := Some "old"%string; stringSink.v := hello |}));
    reflexivity.
Defined.

End p2pcache_facts.

Module lru_facts.
Import lru.

(** [TestEvict]: capacity 20, 25 insertions; the callback sees [key_0 ..
    key_4], in that order. *)
Example TestEvict :
  env <$> (match add_all (init 20 (Some onEvictedFunc) []) test_inserts with
           | Ok st => Some st
           | Panic => None
           end)
  = Some ["key_0"; "key_1"; "key_2"; "key_3"; "key_4"]%string.
Proof. vm_compute. reflexivity. Qed.

(** *** [container/list] *)

Lemma elem_of_Remove_elem l e x : x ∈ Remove_elem l e ↔ x ∈ l ∧ x ≠ e.
Proof. unfold Remove_elem. rewrite list_elem_of_filter. tauto. Qed.

Lemma NoDup_Remove_elem l e : NoDup l → NoDup (Remove_elem l e).
Proof. apply NoDup_filter. Qed.

Lemma Remove_elem_notin l e : e ∉ l → Remove_elem l e = l.
Proof.
  unfold Remove_elem. induction l as [|x l IH]; intros Hnot; [done|].
  rewrite filter_cons. apply not_elem_of_cons in Hnot as [Hne Hnot].
  rewrite decide_True by done. by rewrite IH.
Qed.

Lemma Remove_elem_middle l1 l2 e :
  NoDup (l1 ++ e :: l2) → Remove_elem (l1 ++ e :: l2) e = l1 ++ l2.
Proof.
  intros Hnd. apply NoDup_app in Hnd as (Hnd1 & Hdisj & Hnd2).
  apply NoDup_cons in Hnd2 as [Hnot2 Hnd2].
  unfold Remove_elem. rewrite filter_app, filter_cons, decide_False by naive_solver.
  fold (Remove_elem l1 e). fold (Remove_elem l2 e).
  rewrite !Remove_elem_notin; [done|done|].
  intros Hin. apply (Hdisj e Hin). by left.
Qed.

Lemma length_Remove_elem l e :
  NoDup l → e ∈ l → S (length (Remove_elem l e)) = length l.
Proof.
  intros Hnd (l1 & l2 & ->)%list_elem_of_split.
  rewrite Remove_elem_middle by done. rewrite !length_app. simpl. lia.
Qed.

Lemma elem_of_MoveToFront l e x : x ∈ MoveToFront l e ↔ x ∈ l.
Proof.
  unfold MoveToFront. case_decide as Hin; [|done].
  rewrite elem_of_cons, elem_of_Remove_elem.
  destruct (decide (x = e)) as [->|]; naive_solver.
Qed.

Lemma NoDup_MoveToFront l e : NoDup l → NoDup (MoveToFront l e).
Proof.
  intros Hnd. unfold MoveToFront. case_decide; [|done].
  apply NoDup_cons. split; [|by apply NoDup_Remove_elem].
  rewrite elem_of_Remove_elem. naive_solver.
Qed.

Lemma length_MoveToFront l e : NoDup l → length (MoveToFront l e) = length l.
Proof.
  intros Hnd. unfold MoveToFront. case_decide; [|done].
  simpl. by apply length_Remove_elem.
Qed.

Section cache_facts.
Context {Key Val W : Type} `{Countable Key}.
Implicit Types (st : State Key Val W) (l : list Element) (c : gmap Key Element).
Implicit Types (ent : entry Key Val).

(** *** Loops and the callback *)

Lemma fire_fields st ent :
  lru (fire st ent) = lru st ∧ cells (fire st ent) = cells st ∧
  env (fire st ent) = apply_hook (OnEvicted (lru st)) (env st) ent.
Proof. unfold fire, apply_hook. by destruct (OnEvicted (lru st)). Qed.

Lemma wf_ext st st' : lru st' = lru st → cells st' = cells st → wf st → wf st'.
Proof. unfold wf. by intros -> ->. Qed.

(** *** [removeElement] *)

Lemma removeElement_spec st l c elem :
  dll (lru st) = Some l → cache (lru st) = Some c → wf st → elem ∈ l →
  ∃ st' ent,
    removeElement st elem = Ok st' ∧ cells st !! elem = Some ent ∧
    dll (lru st') = Some (Remove_elem l elem) ∧
    cache (lru st') = Some (delete (key ent) c) ∧
    MaxEntries (lru st') = MaxEntries (lru st) ∧
    OnEvicted (lru st') = OnEvicted (lru st) ∧
    cells st' = cells st ∧
    env st' = apply_hook (OnEvicted (lru st)) (env st) ent ∧
    wf st'.
Proof.
  intros Hl Hc Hwf Hin. unfold wf in Hwf. rewrite Hl, Hc in Hwf.
  destruct Hwf as (Hnd & Hcells & Hmap).
  destruct (Hcells elem Hin) as [ent Hent].
  unfold removeElement. rewrite Hl. simpl. rewrite Hent. simpl. rewrite Hc. simpl.
  eexists _, ent. split; [done|]. split; [done|].
  destruct (fire_fields
    (set_cache (set_dll st (Some (Remove_elem l elem))) (Some (delete (key ent) c))) ent)
    as (Hlru & Hcs & Henv).
  rewrite Hlru, Hcs, Henv. simpl. repeat (split; [done|]).
  eapply wf_ext; [exact Hlru|exact Hcs|].
  unfold wf. simpl. split; [by apply NoDup_Remove_elem|]. split.
  - intros e [He _]%elem_of_Remove_elem. auto.
  - intros k e. rewrite lookup_delete, elem_of_Remove_elem.
    case_decide as Hk; [|rewrite Hmap]; split.
    + done.
    + intros [[He Hne] Hkey]. subst k.
      assert (c !! key ent = Some elem) as Helem.
      { apply Hmap. split; [done|]. by rewrite Hent. }
      assert (c !! key ent = Some e) as He'.
      { apply Hmap. by split. }
      congruence.
    + intros [He Hkey]. split; [|done]. split; [done|].
      intros ->. rewrite Hent in Hkey. simpl in Hkey. congruence.
    + intros [[He _] Hkey]. by split.
Qed.

(** *** Entries *)

Lemma entries_Forall2 st l :
  dll (lru st) = Some l → (∀ e, e ∈ l → is_Some (cells st !! e)) →
  Forall2 (fun e ent => cells st !! e = Some ent) l (entries st).
Proof.
  intros Hl. unfold entries. rewrite Hl. simpl. clear Hl.
  induction l as [|e l IH]; intros Hall; simpl; [constructor|].
  destruct (Hall e) as [ent Hent]; [by left|]. rewrite Hent. simpl.
  constructor; [done|]. apply IH. intros e' He'. apply Hall. by right.
Qed.

Lemma wf_entries st l c :
  dll (lru st) = Some l → cache (lru st) = Some c → wf st →
  Forall2 (fun e ent => cells st !! e = Some ent) l (entries st).
Proof.
  intros Hl Hc Hwf. unfold wf in Hwf. rewrite Hl, Hc in Hwf.
  apply entries_Forall2; [done|]. apply Hwf.
Qed.

Lemma size_entries st : wf st → length (entries st) = dll_len st.
Proof.
  intros Hwf. unfold dll_len. destruct (dll (lru st)) as [l|] eqn:Hl.
  - destruct (cache (lru st)) as [c|] eqn:Hc.
    + symmetry. eapply Forall2_length, wf_entries; done.
    + unfold wf in Hwf. by rewrite Hl, Hc in Hwf.
  - unfold entries. by rewrite Hl.
Qed.

Lemma cached_key st l c k :
  dll (lru st) = Some l → cache (lru st) = Some c → wf st →
  is_Some (c !! k) ↔ k ∈ key <$> entries st.
Proof.
  intros Hl Hc Hwf. pose proof (wf_entries st l c Hl Hc Hwf) as Hents.
  unfold wf in Hwf. rewrite Hl, Hc in Hwf. destruct Hwf as (Hnd & Hcells & Hmap).
  rewrite list_elem_of_fmap. split.
  - intros [e He]. apply Hmap in He as [Hin Hkey].
    apply list_elem_of_lookup in Hin as [i Hi].
    destruct (Forall2_lookup_l _ _ _ _ _ Hents Hi) as (ent & Hent & Hcell).
    exists ent. rewrite Hcell in Hkey. simpl in Hkey. split; [congruence|].
    by eapply list_elem_of_lookup_2.
  - intros (ent & -> & [i Hi]%list_elem_of_lookup).
    destruct (Forall2_lookup_r _ _ _ _ _ Hents Hi) as (e & He & Hcell).
    exists e. apply Hmap. split; [by eapply list_elem_of_lookup_2|]. by rewrite Hcell.
Qed.

(** *** [RemoveOldest] *)

Lemma RemoveOldest_nil st : cache (lru st) = None → RemoveOldest st = Ok st.
Proof. unfold RemoveOldest. by intros ->. Qed.

Lemma RemoveOldest_empty st c :
  dll (lru st) = Some [] → cache (lru st) = Some c → RemoveOldest st = Ok st.
Proof. unfold RemoveOldest. by intros -> ->. Qed.

Lemma RemoveOldest_last st l c e :
  dll (lru st) = Some (l ++ [e]) → cache (lru st) = Some c → wf st →
  ∃ st' ent,
    RemoveOldest st = Ok st' ∧ cells st !! e = Some ent ∧
    dll (lru st') = Some l ∧ cache (lru st') = Some (delete (key ent) c) ∧
    same_config st st' ∧ cells st' = cells st ∧
    env st' = apply_hook (OnEvicted (lru st)) (env st) ent ∧ wf st'.
Proof.
  intros Hl Hc Hwf.
  destruct (removeElement_spec st (l ++ [e]) c e Hl Hc Hwf) as
    (st' & ent & Hrm & Hent & Hl' & Hc' & HM & Hh & Hcs & Henv & Hwf').
  { apply elem_of_app. right. by left. }
  exists st', ent. unfold RemoveOldest. rewrite Hc, Hl. simpl.
  unfold Back. rewrite last_snoc. split; [done|]. split; [done|].
  rewrite Remove_elem_middle, app_nil_r in Hl'.
  - done.
  - unfold wf in Hwf. rewrite Hl, Hc in Hwf. apply Hwf.
Qed.

Lemma RemoveOldest_entries st c ents ent :
  cache (lru st) = Some c → wf st → entries st = ents ++ [ent] →
  ∃ st',
    RemoveOldest st = Ok st' ∧ wf st' ∧ same_config st st' ∧
    entries st' = ents ∧ env st' = apply_hook (OnEvicted (lru st)) (env st) ent.
Proof.
  intros Hc Hwf Hents.
  destruct (dll (lru st)) as [l|] eqn:Hl; cycle 1.
  { unfold entries in Hents. rewrite Hl in Hents. by destruct ents. }
  pose proof (wf_entries st l c Hl Hc Hwf) as HF. rewrite Hents in HF.
  apply Forall2_app_inv_r in HF as (l1 & l2 & HF1 & HF2 & ->).
  apply Forall2_cons_inv_r in HF2 as (e & l2' & Hcell & HF2 & ->).
  apply Forall2_nil_inv_r in HF2 as ->.
  destruct (RemoveOldest_last st l1 c e Hl Hc Hwf) as
    (st' & ent' & Hrm & Hent' & Hl' & Hc' & Hcfg & Hcs & Henv & Hwf').
  exists st'. split; [done|]. split; [done|]. split; [done|].
  assert (ent' = ent) as -> by congruence. split; [|done].
  unfold entries. rewrite Hl', Hcs. simpl.
  clear -HF1. induction HF1 as [|x y l l' Hxy _ IH]; simpl; [done|].
  rewrite Hxy. f_equal. exact IH.
Qed.

(** *** [Add] *)

Lemma renew_wf st : wf (renew st).
Proof.
  unfold wf. simpl. split; [constructor|]. split.
  - intros e He. by apply elem_of_nil in He.
  - intros k e. rewrite lookup_empty. split; [done|].
    intros [He _]. by apply elem_of_nil in He.
Qed.

Lemma Add_nil st k v : cache (lru st) = None → Add st k v = Add (renew st) k v.
Proof. intros Hc. unfold Add. rewrite Hc. reflexivity. Qed.

Lemma Add_miss st l c k v :
  dll (lru st) = Some l → cache (lru st) = Some c → c !! k = None →
  Add st k v =
    if negb (MaxEntries (lru st) =? 0) && (MaxEntries (lru st) <? len (PushFront l (fresh (dom (cells st)))))
    then RemoveOldest (pushed st l c k v)
    else Ok (pushed st l c k v).
Proof.
  destruct st as [[M h d c0] cs w]. simpl. intros -> -> Hk.
  unfold Add. simpl. rewrite Hk. reflexivity.
Qed.

Lemma pushed_wf st l c k v :
  dll (lru st) = Some l → cache (lru st) = Some c → wf st → c !! k = None →
  wf (pushed st l c k v) ∧ entries (pushed st l c k v) = mkEntry k v :: entries st.
Proof.
  intros Hl Hc Hwf Hk. pose proof (wf_entries st l c Hl Hc Hwf) as HF.
  unfold wf in Hwf. rewrite Hl, Hc in Hwf. destruct Hwf as (Hnd & Hcells & Hmap).
  set (elem := fresh (dom (cells st))).
  assert (Hfresh : cells st !! elem = None).
  { apply not_elem_of_dom. apply is_fresh. }
  assert (Hnotin : elem ∉ l).
  { intros Hin. destruct (Hcells elem Hin) as [ent Hent]. congruence. }
  split.
  - unfold wf, pushed. simpl. fold elem. split; [by apply NoDup_cons|]. split.
    + intros e. rewrite lookup_insert. case_decide; [by eexists|].
      intros [->|He]%elem_of_cons; [done|]. auto.
    + intros k' e. unfold PushFront. rewrite elem_of_cons.
      destruct (decide (k' = k)) as [->|Hk'], (decide (e = elem)) as [->|He].
      * rewrite !lookup_insert_eq. simpl. naive_solver.
      * rewrite lookup_insert_eq, lookup_insert_ne by done. split; [congruence|].
        intros [[->|Hin] Hkey]; [done|].
        assert (c !! k = Some e) by (by apply Hmap). congruence.
      * rewrite lookup_insert_ne, lookup_insert_eq by done. simpl. split.
        -- intros [Hin _]%Hmap. done.
        -- intros [_ [= ->]]. done.
      * rewrite !lookup_insert_ne by done. rewrite Hmap. naive_solver.
  - unfold entries, pushed. simpl. fold elem. rewrite Hl. simpl.
    rewrite lookup_insert_eq. f_equal.
    clear -HF Hnotin. induction HF as [|x y l0 l' Hxy _ IH]; simpl; [done|].
    apply not_elem_of_cons in Hnotin as [Hne Hnotin].
    rewrite lookup_insert_ne by done. rewrite Hxy. f_equal. by apply IH.
Qed.

Lemma snoc_cases {A} (x : A) (xs : list A) : ∃ (ys : list A) (y : A), x :: xs = ys ++ [y].
Proof.
  revert x. induction xs as [|z xs IH]; intros x.
  - by exists [], x.
  - destruct (IH z) as (ys & y & ->). by exists (x :: ys), y.
Qed.

Lemma Add_new_Some st l c k v :
  dll (lru st) = Some l → cache (lru st) = Some c → wf st →
  k ∉ key <$> entries st →
  ∃ st', Add st k v = Ok st' ∧ wf st' ∧ same_config st st' ∧
    if over_limit st (len (mkEntry k v :: entries st))
    then ∃ ents ent, mkEntry k v :: entries st = ents ++ [ent] ∧ entries st' = ents ∧
                     env st' = apply_hook (OnEvicted (lru st)) (env st) ent
    else entries st' = mkEntry k v :: entries st ∧ env st' = env st.
Proof.
  intros Hl Hc Hwf Hk.
  assert (Hmiss : c !! k = None).
  { apply eq_None_not_Some. by rewrite (cached_key st l c k Hl Hc Hwf). }
  rewrite (Add_miss st l c k v Hl Hc Hmiss).
  destruct (pushed_wf st l c k v Hl Hc Hwf Hmiss) as [Hwf1 Hents1].
  assert (Hlen : len (PushFront l (fresh (dom (cells st)))) = len (mkEntry k v :: entries st)).
  { unfold len, PushFront. simpl. rewrite (size_entries st Hwf). unfold dll_len. by rewrite Hl. }
  rewrite Hlen. fold (over_limit st (len (mkEntry k v :: entries st))).
  destruct (over_limit st (len (mkEntry k v :: entries st))).
  - destruct (snoc_cases (mkEntry k v) (entries st)) as (ents & ent & Hsnoc).
    destruct (RemoveOldest_entries (pushed st l c k v) (<[k := fresh (dom (cells st))]> c) ents ent)
      as (st' & Hrm & Hwf' & [HM Hh] & Hents' & Henv'); [done|done|congruence|].
    exists st'. split; [done|]. split; [done|]. split; [by split|].
    exists ents, ent. done.
  - exists (pushed st l c k v). done.
Qed.

Lemma renew_fields st :
  entries (renew st) = [] ∧ same_config st (renew st) ∧ env (renew st) = env st ∧
  dll (lru (renew st)) = Some [] ∧ cache (lru (renew st)) = Some ∅.
Proof. done. Qed.

Lemma wf_nil st : wf st → cache (lru st) = None → dll (lru st) = None ∧ entries st = [].
Proof.
  unfold wf, entries. intros Hwf Hc. rewrite Hc in Hwf.
  by destruct (dll (lru st)).
Qed.

Lemma wf_Some st c : wf st → cache (lru st) = Some c → ∃ l, dll (lru st) = Some l.
Proof.
  unfold wf. intros Hwf Hc. rewrite Hc in Hwf.
  destruct (dll (lru st)) as [l|]; [by exists l|done].
Qed.

(** [Add] of a key that is not cached: the new entry goes to the front, and
    if that makes the list longer than a non-zero limit, the entry at the
    back is removed and handed to the callback. *)
Lemma Add_new st k v :
  wf st → k ∉ key <$> entries st →
  ∃ st', Add st k v = Ok st' ∧ wf st' ∧ same_config st st' ∧
    if over_limit st (len (mkEntry k v :: entries st))
    then ∃ ents ent, mkEntry k v :: entries st = ents ++ [ent] ∧ entries st' = ents ∧
                     env st' = apply_hook (OnEvicted (lru st)) (env st) ent
    else entries st' = mkEntry k v :: entries st ∧ env st' = env st.
Proof.
  intros Hwf Hk. destruct (cache (lru st)) as [c|] eqn:Hc.
  - destruct (wf_Some st c Hwf Hc) as [l Hl]. by eapply Add_new_Some.
  - destruct (wf_nil st Hwf Hc) as [Hl Hents].
    rewrite (Add_nil st k v Hc). rewrite Hents in *.
    destruct (Add_new_Some (renew st) [] ∅ k v) as (st' & HAdd & Hwf' & Hcfg & Hres);
      [done|done|apply renew_wf|done|].
    exists st'. done.
Qed.

(** *** A run of insertions of distinct keys *)

Lemma elem_of_drop_sub {A} (x : A) (n : nat) (xs : list A) : x ∈ drop n xs → x ∈ xs.
Proof. intros Hin. rewrite <- (take_drop n xs). apply elem_of_app. by right. Qed.

Lemma foldM_app {A B} (f : A → B → outcome A) (xs ys : list B) (a : A) :
  foldM f (xs ++ ys) a = (a' ← foldM f xs a; foldM f ys a').
Proof.
  revert a. induction xs as [|x xs IH]; intros a; simpl; [done|].
  destruct (f a x); simpl; [apply IH|done].
Qed.

Lemma init_wf C h (w0 : W) : wf (init C h w0 : State Key Val W).
Proof.
  unfold wf. simpl. split; [constructor|]. split.
  - intros e He. by apply elem_of_nil in He.
  - intros k e. rewrite lookup_empty. split; [done|].
    intros [He _]. by apply elem_of_nil in He.
Qed.

Lemma add_all_distinct C h (w0 : W) (kvs : list (Key * Val)) :
  0 < C → NoDup kvs.*1 →
  let d := (length kvs - Z.to_nat C)%nat in
  ∃ st, add_all (init C h w0) kvs = Ok st ∧ wf st ∧
        MaxEntries (lru st) = C ∧ OnEvicted (lru st) = h ∧
        entries st = reverse (drop d (entry_of <$> kvs)) ∧
        env st = fold_left (apply_hook h) (take d (entry_of <$> kvs)) w0.
Proof.
  intros HC. induction kvs as [|kv kvs IH] using rev_ind; intros Hnd; cbv zeta.
  - exists (init C h w0). split; [done|]. split; [apply init_wf|]. done.
  - rewrite fmap_app in Hnd. apply NoDup_app in Hnd as (Hnd & Hdisj & _).
    destruct (IH Hnd) as (st & Hrun & Hwf & HM & Hh & Hents & Henv). clear IH.
    set (es := entry_of <$> kvs) in *.
    set (n := length kvs). fold n in Hents, Henv.
    set (c := Z.to_nat C).  fold c in Hents, Henv.
    assert (Hes : length es = n) by (unfold es; by rewrite length_fmap).
    assert (Hnew : kv.1 ∉ key <$> entries st).
    { rewrite Hents. intros (ent & Hkey & Hin)%list_elem_of_fmap.
      rewrite elem_of_reverse in Hin. apply elem_of_drop_sub in Hin.
      apply list_elem_of_fmap in Hin as (kv' & -> & Hin).
      apply (Hdisj kv'.1).
      - apply list_elem_of_fmap. by exists kv'.
      - simpl in Hkey. rewrite <- Hkey. simpl. by left. }
    destruct (Add_new st kv.1 kv.2 Hwf Hnew) as (st' & HAdd & Hwf' & [HM' Hh'] & Hres).
    exists st'. unfold add_all. rewrite foldM_app. fold (add_all (init C h w0) kvs).
    rewrite Hrun. simpl. rewrite HAdd. split; [done|]. split; [done|].
    split; [congruence|]. split; [congruence|].
    rewrite fmap_app, length_app. simpl. fold es. fold n. fold c.
    change (mkEntry kv.1 kv.2) with (entry_of kv) in Hres.
    assert (Hlen : len (entry_of kv :: entries st) = Z.of_nat (S (n - (n - c)))).
    { unfold len. simpl. rewrite Hents, length_reverse, length_drop, Hes. done. }
    unfold over_limit in Hres. rewrite Hlen, HM, Hh in Hres.
    destruct (Z.eqb_spec C 0) as [|_]; [lia|]. simpl in Hres.
    destruct (Z.ltb_spec C (Z.of_nat (S (n - (n - c))))) as [Hover|Hunder].
    + (* the list was full: the oldest entry goes *)
      assert (Hc : (c ≤ n)%nat) by (unfold c in *; lia).
      destruct Hres as (ents & ent & Hsnoc & Hents' & Henv').
      destruct (lookup_lt_is_Some_2 es (n - c)) as [y Hy]; [unfold c in *; lia|].
      rewrite Hents in Hsnoc.
      rewrite (drop_S es y (n - c) Hy) in Hsnoc. rewrite reverse_cons in Hsnoc.
      change (entry_of kv :: (reverse (drop (S (n - c)) es) ++ [y]))
        with ((entry_of kv :: reverse (drop (S (n - c)) es)) ++ [y]) in Hsnoc.
      apply app_inj_tail in Hsnoc as [<- <-].
      replace (n + 1 - c)%nat with (S (n - c)) by lia.
      split.
      * rewrite Hents'. rewrite drop_app_le by lia. by rewrite reverse_snoc.
      * rewrite Henv', Henv. rewrite take_app_le by lia.
        rewrite (take_S_r es (n - c) y Hy). by rewrite fold_left_app.
    + (* room is left *)
      assert (Hc : (n < c)%nat) by (unfold c in *; lia).
      destruct Hres as [Hents' Henv'].
      replace (n + 1 - c)%nat with 0%nat by lia.
      replace (n - c)%nat with 0%nat in * by lia.
      rewrite !drop_0 in *. rewrite !take_0 in *. simpl in *.
      split; [|congruence]. rewrite Hents', Hents. by rewrite reverse_snoc.
Qed.

(** *** The operations keep the invariant and never panic *)

Lemma hit_cell st l c k elem :
  dll (lru st) = Some l → cache (lru st) = Some c → wf st → c !! k = Some elem →
  elem ∈ l ∧ NoDup l ∧ ∃ ent, cells st !! elem = Some ent ∧ key ent = k.
Proof.
  intros Hl Hc Hwf Hk. unfold wf in Hwf. rewrite Hl, Hc in Hwf.
  destruct Hwf as (Hnd & Hcells & Hmap).
  apply Hmap in Hk as [Hin Hkey]. split; [done|]. split; [done|].
  destruct (cells st !! elem) as [ent|]; [|done].
  exists ent. split; [done|]. simpl in Hkey. congruence.
Qed.

Lemma MoveToFront_wf st l c elem :
  dll (lru st) = Some l → cache (lru st) = Some c → wf st →
  wf (set_dll st (Some (MoveToFront l elem))) ∧
  dll_len (set_dll st (Some (MoveToFront l elem))) = dll_len st ∧
  entries (set_dll st (Some (MoveToFront l elem))) ≡ₚ entries st.
Proof.
  intros Hl Hc Hwf. pose proof Hwf as Hwf0.
  unfold wf in Hwf. rewrite Hl, Hc in Hwf. destruct Hwf as (Hnd & Hcells & Hmap).
  split; [|split].
  - unfold wf. simpl. rewrite Hc. split; [by apply NoDup_MoveToFront|]. split.
    + intros e He%elem_of_MoveToFront. auto.
    + intros k e. rewrite elem_of_MoveToFront. apply Hmap.
  - unfold dll_len. simpl. rewrite Hl. simpl. by apply length_MoveToFront.
  - unfold entries. simpl. rewrite Hl. simpl.
    apply omap_Permutation. apply NoDup_Permutation; [by apply NoDup_MoveToFront|done|].
    intros e. apply elem_of_MoveToFront.
Qed.

Lemma Add_hit st l c k v elem :
  dll (lru st) = Some l → cache (lru st) = Some c → wf st → c !! k = Some elem →
  ∃ st', Add st k v = Ok st' ∧ wf st' ∧ same_config st st' ∧
         dll_len st' = dll_len st ∧ env st' = env st.
Proof.
  intros Hl Hc Hwf Hk.
  destruct (hit_cell st l c k elem Hl Hc Hwf Hk) as (Hin & Hnd & ent & Hent & Hkey).
  destruct (MoveToFront_wf st l c elem Hl Hc Hwf) as (Hwf1 & Hsize1 & _).
  exists (set_cell (set_dll st (Some (MoveToFront l elem))) elem (mkEntry (key ent) v)).
  split.
  { destruct st as [[M h d c0] cs w]. simpl in *. subst d c0.
    unfold Add. simpl. rewrite Hk. simpl. rewrite Hent. reflexivity. }
  split; [|done].
  unfold wf in Hwf1 |- *. simpl in *. rewrite Hc in *.
  destruct Hwf1 as (Hnd1 & Hcells1 & Hmap1). split; [done|]. split.
  - intros e He. rewrite lookup_insert. case_decide; [by eexists|]. auto.
  - intros k' e. rewrite Hmap1. rewrite lookup_insert.
    case_decide as He; [|done]. subst e. rewrite Hent. done.
Qed.

Lemma Add_total st k v :
  wf st →
  ∃ st', Add st k v = Ok st' ∧ wf st' ∧ same_config st st' ∧ (bounded st → bounded st').
Proof.
  intros Hwf. destruct (decide (k ∈ key <$> entries st)) as [Hin|Hnew].
  - destruct (cache (lru st)) as [c|] eqn:Hc; cycle 1.
    { destruct (wf_nil st Hwf Hc) as [_ Hents]. rewrite Hents in Hin.
      by apply elem_of_nil in Hin. }
    destruct (wf_Some st c Hwf Hc) as [l Hl].
    destruct (proj2 (cached_key st l c k Hl Hc Hwf) Hin) as [elem Helem].
    destruct (Add_hit st l c k v elem Hl Hc Hwf Helem)
      as (st' & HAdd & Hwf' & Hcfg & Hsize & _).
    exists st'. split; [done|]. split; [done|]. split; [done|].
    unfold bounded. destruct Hcfg as [-> _]. by rewrite Hsize.
  - destruct (Add_new st k v Hwf Hnew) as (st' & HAdd & Hwf' & Hcfg & Hres).
    exists st'. split; [done|]. split; [done|]. split; [done|].
    unfold bounded. destruct Hcfg as [HM _]. rewrite HM. intros Hb HC.
    rewrite <- (size_entries st' Hwf'). specialize (Hb HC).
    rewrite <- (size_entries st Hwf) in Hb.
    unfold over_limit in Hres. unfold len in Hres. simpl in Hres.
    destruct (Z.eqb_spec (MaxEntries (lru st)) 0) as [|_]; [lia|]. simpl in Hres.
    destruct (Z.ltb_spec (MaxEntries (lru st)) (Z.of_nat (S (length (entries st)))))
      as [Hover|Hunder].
    + destruct Hres as (ents & ent & Hsnoc & -> & _).
      apply (f_equal length) in Hsnoc. rewrite length_app in Hsnoc. simpl in Hsnoc. lia.
    + destruct Hres as [-> _]. simpl. lia.
Qed.

Lemma Get_spec st k :
  wf st →
  ∃ st' r, Get st k = Ok (st', r) ∧ wf st' ∧ same_config st st' ∧
           dll_len st' = dll_len st ∧ env st' = env st ∧ cells st' = cells st ∧
           (k ∈ key <$> entries st → ∃ v, r = Some v ∧ mkEntry k v ∈ entries st) ∧
           (k ∉ key <$> entries st → r = None ∧ st' = st).
Proof.
  intros Hwf. unfold Get. destruct (cache (lru st)) as [c|] eqn:Hc; cycle 1.
  { destruct (wf_nil st Hwf Hc) as [_ Hents].
    exists st, None. rewrite Hents. repeat (split; [done|]). split; [|done].
    intros Hin. by apply elem_of_nil in Hin. }
  destruct (wf_Some st c Hwf Hc) as [l Hl].
  pose proof (cached_key st l c k Hl Hc Hwf) as Hcached.
  destruct (c !! k) as [elem|] eqn:Hk; cycle 1.
  { exists st, None. repeat (split; [done|]). split; [|done].
    intros [? [=]]%Hcached. }
  destruct (hit_cell st l c k elem Hl Hc Hwf Hk) as (Hin & Hnd & ent & Hent & Hkey).
  destruct (MoveToFront_wf st l c elem Hl Hc Hwf) as (Hwf1 & Hsize1 & _).
  rewrite Hl. simpl. rewrite Hent. simpl.
  eexists _, _. split; [done|]. repeat (split; [done|]). split.
  - intros _. exists (value ent). split; [done|].
    pose proof (wf_entries st l c Hl Hc Hwf) as HF.
    apply list_elem_of_lookup in Hin as [i Hi].
    destruct (Forall2_lookup_l _ _ _ _ _ HF Hi) as (ent' & Hent' & Hcell).
    assert (ent' = ent) as -> by congruence.
    apply list_elem_of_lookup. exists i. rewrite Hent'. f_equal.
    destruct ent; simpl in *; by subst.
  - intros Hnot. exfalso. apply Hnot, Hcached. by eexists.
Qed.

Lemma Remove_spec st k :
  wf st → ∃ st', Remove st k = Ok st' ∧ wf st' ∧ same_config st st' ∧ (dll_len st' ≤ dll_len st)%nat.
Proof.
  intros Hwf. unfold Remove. destruct (cache (lru st)) as [c|] eqn:Hc; cycle 1.
  { by exists st. }
  destruct (wf_Some st c Hwf Hc) as [l Hl].
  destruct (c !! k) as [elem|] eqn:Hk; cycle 1.
  { by exists st. }
  destruct (hit_cell st l c k elem Hl Hc Hwf Hk) as (Hin & Hnd & _).
  destruct (removeElement_spec st l c elem Hl Hc Hwf Hin) as
    (st' & ent & Hrm & _ & Hl' & _ & HM & Hh & _ & _ & Hwf').
  exists st'. split; [done|]. split; [done|]. split; [done|].
  unfold dll_len. rewrite Hl, Hl'. simpl.
  pose proof (length_Remove_elem l elem Hnd Hin). lia.
Qed.

Lemma RemoveOldest_spec st :
  wf st → ∃ st', RemoveOldest st = Ok st' ∧ wf st' ∧ same_config st st' ∧ (dll_len st' ≤ dll_len st)%nat.
Proof.
  intros Hwf. destruct (cache (lru st)) as [c|] eqn:Hc; cycle 1.
  { exists st. by rewrite RemoveOldest_nil. }
  destruct (wf_Some st c Hwf Hc) as [l Hl].
  destruct l as [|e l _] using rev_ind.
  { exists st. by rewrite (RemoveOldest_empty st c). }
  destruct (RemoveOldest_last st l c e Hl Hc Hwf)
    as (st' & ent & Hrm & _ & Hl' & _ & Hcfg & _ & _ & Hwf').
  exists st'. split; [done|]. split; [done|]. split; [done|].
  unfold dll_len. rewrite Hl, Hl'. simpl. rewrite length_app. lia.
Qed.

Lemma Clear_loop st (es : list Element) :
  (∀ e, e ∈ es → is_Some (cells st !! e)) →
  ∃ st', foldM (fun st elem => ent ← deref (cells st !! elem); Ok (fire st ent)) es st = Ok st' ∧
         lru st' = lru st ∧ cells st' = cells st.
Proof.
  revert st. induction es as [|e es IH]; intros st Hall; simpl.
  - by exists st.
  - destruct (Hall e) as [ent Hent]; [by left|]. rewrite Hent. simpl.
    destruct (fire_fields st ent) as (Hlru & Hcs & _).
    destruct (IH (fire st ent)) as (st' & Hrun & Hlru' & Hcs').
    { intros e' He'. rewrite Hcs. apply Hall. by right. }
    exists st'. split; [done|]. split; congruence.
Qed.

Lemma Clear_spec st :
  wf st →
  ∃ st', Clear st = Ok st' ∧ wf st' ∧ same_config st st' ∧
         dll (lru st') = None ∧ cache (lru st') = None ∧ cells st' = cells st.
Proof.
  intros Hwf. unfold Clear.
  assert (Hloop : ∃ st1,
    match OnEvicted (lru st), cache (lru st) with
    | Some _, Some c =>
        foldM (fun st elem => ent ← deref (cells st !! elem); Ok (fire st ent))
              (map_to_list c).*2 st
    | _, _ => Ok st
    end = Ok st1 ∧ lru st1 = lru st ∧ cells st1 = cells st).
  { destruct (OnEvicted (lru st)); [|by exists st].
    destruct (cache (lru st)) as [c|] eqn:Hc; [|by exists st].
    destruct (wf_Some st c Hwf Hc) as [l Hl].
    apply Clear_loop. intros e (kv & -> & Hkv)%list_elem_of_fmap.
    destruct kv as [k e]. apply elem_of_map_to_list in Hkv. simpl.
    destruct (hit_cell st l c k e Hl Hc Hwf Hkv) as (_ & _ & ent & Hent & _).
    by eexists. }
  destruct Hloop as (st1 & -> & Hlru & Hcs). simpl.
  eexists. split; [done|]. unfold wf, same_config. simpl. rewrite Hlru. done.
Qed.

Lemma step_spec st (o : op) :
  wf st →
  ∃ st', step st o = Ok st' ∧ wf st' ∧ same_config st st' ∧ (bounded st → bounded st').
Proof.
  intros Hwf. destruct o as [k v|k|k| |]; simpl.
  - by apply Add_total.
  - destruct (Get_spec st k Hwf) as (st' & r & -> & Hwf' & Hcfg & Hsize & _).
    exists st'. simpl. split; [done|]. split; [done|]. split; [done|].
    unfold bounded. destruct Hcfg as [-> _]. by rewrite Hsize.
  - destruct (Remove_spec st k Hwf) as (st' & -> & Hwf' & Hcfg & Hsize).
    exists st'. split; [done|]. split; [done|]. split; [done|].
    unfold bounded. destruct Hcfg as [-> _]. intros Hb HC. specialize (Hb HC). lia.
  - destruct (RemoveOldest_spec st Hwf) as (st' & -> & Hwf' & Hcfg & Hsize).
    exists st'. split; [done|]. split; [done|]. split; [done|].
    unfold bounded. destruct Hcfg as [-> _]. intros Hb HC. specialize (Hb HC). lia.
  - destruct (Clear_spec st Hwf) as (st' & -> & Hwf' & Hcfg & Hl & _).
    exists st'. split; [done|]. split; [done|]. split; [done|].
    unfold bounded, dll_len. rewrite Hl. simpl. lia.
Qed.

Lemma run_spec C h (w0 : W) (ops : list op) :
  ∃ st : State Key Val W,
    run (init C h w0) ops = Ok st ∧ wf st ∧
    MaxEntries (lru st) = C ∧ OnEvicted (lru st) = h ∧ bounded st.
Proof.
  induction ops as [|o ops IH] using rev_ind.
  - exists (init C h w0). split; [done|]. split; [apply init_wf|].
    split; [done|]. split; [done|]. unfold bounded, dll_len. simpl. lia.
  - destruct IH as (st & Hrun & Hwf & HM & Hh & Hb).
    destruct (step_spec st o Hwf) as (st' & Hstep & Hwf' & [HM' Hh'] & Hb').
    exists st'. unfold run. rewrite foldM_app. fold (run (init C h w0) ops).
    rewrite Hrun. simpl. rewrite Hstep. split; [done|]. split; [done|].
    split; [congruence|]. split; [congruence|]. auto.
Qed.

Lemma Len_size st : wf st → Len st = Ok (Z.of_nat (dll_len st)).
Proof.
  intros Hwf. unfold Len, dll_len. destruct (cache (lru st)) as [c|] eqn:Hc.
  - destruct (wf_Some st c Hwf Hc) as [l ->]. done.
  - destruct (wf_nil st Hwf Hc) as [-> _]. done.
Qed.

(** C7.  A cache made with [MaxEntries = C > 0], after any history of [Add],
    [Get], [Remove], [RemoveOldest] and [Clear]: no call panics, and [Len] is
    at most [C].  When the cache is full, [Add] of a key that is not cached
    puts the new entry at the front, removes the entry at the back (the least
    recently used one) and hands it to the callback. *)
Theorem Len_at_most_MaxEntries (C : Z) (h : option (Key → Val → W → W)) (w0 : W)
    (ops : list op) :
  0 < C →
  ∃ (st : State Key Val W) (n : Z),
    run (init C h w0) ops = Ok st ∧ Len st = Ok n ∧ 0 ≤ n ≤ C ∧
    ∀ k v, k ∉ key <$> entries st → n = C →
      ∃ st' ents ent,
        Add st k v = Ok st' ∧ entries st = ents ++ [ent] ∧
        entries st' = mkEntry k v :: ents ∧
        env st' = apply_hook h (env st) ent ∧ Len st' = Ok C.
Proof.
  intros HC. destruct (run_spec C h w0 ops) as (st & Hrun & Hwf & HM & Hh & Hb).
  exists st, (Z.of_nat (dll_len st)). split; [done|]. split; [by apply Len_size|].
  unfold bounded in Hb. rewrite HM in Hb. split; [lia|].
  intros k v Hnew Hfull.
  destruct (Add_new st k v Hwf Hnew) as (st' & HAdd & Hwf' & Hcfg & Hres).
  unfold over_limit in Hres. unfold len in Hres. simpl in Hres.
  rewrite (size_entries st Hwf), HM, Hh in Hres.
  destruct (Z.eqb_spec C 0) as [|_]; [lia|].
  destruct (Z.ltb_spec C (Z.of_nat (S (dll_len st)))) as [_|]; [|lia].
  simpl in Hres. destruct Hres as (ents0 & ent & Hsnoc & Hents' & Henv').
  pose proof (size_entries st Hwf) as Hlen.
  destruct (entries st) as [|ent' ents _] eqn:Hents using rev_ind.
  { simpl in Hlen. lia. }
  change (mkEntry k v :: ents ++ [ent']) with ((mkEntry k v :: ents) ++ [ent']) in Hsnoc.
  apply app_inj_tail in Hsnoc as [<- <-].
  exists st', ents, ent'. split; [done|]. split; [done|]. split; [done|]. split; [done|].
  rewrite (Len_size st' Hwf'), <- (size_entries st' Hwf'), Hents'. f_equal.
  rewrite length_app in Hlen. simpl in *. lia.
Qed.

(** C10.  After any history, [Clear] returns and leaves a cache on which
    [Get] finds nothing, [Len] is 0, [Remove] and [RemoveOldest] do nothing,
    and [Add] does what it does on a new cache with the same limit and
    callback: it returns, and (for a limit that is not negative) the cache
    then holds the one entry added. *)
Theorem Clear_then_usable (C : Z) (h : option (Key → Val → W → W)) (w0 : W)
    (ops : list op) :
  ∃ st st' : State Key Val W,
    run (init C h w0) ops = Ok st ∧ Clear st = Ok st' ∧
    (∀ k, Get st' k = Ok (st', None)) ∧
    Len st' = Ok 0 ∧
    (∀ k, Remove st' k = Ok st') ∧
    RemoveOldest st' = Ok st' ∧
    ∀ k v,
      Add st' k v = Add (renew st') k v ∧
      ∃ st'', Add st' k v = Ok st'' ∧
              (0 ≤ C → entries st'' = [mkEntry k v] ∧ Len st'' = Ok 1 ∧
                       ∃ st3, Get st'' k = Ok (st3, Some v)).
Proof.
  destruct (run_spec C h w0 ops) as (st & Hrun & Hwf & HM & Hh & _).
  destruct (Clear_spec st Hwf) as (st' & HClear & Hwf' & [HM' Hh'] & Hl & Hc & _).
  exists st, st'. split; [done|]. split; [done|].
  split; [intros k; unfold Get; by rewrite Hc|].
  split; [unfold Len; by rewrite Hc|].
  split; [intros k; unfold Remove; by rewrite Hc|].
  split; [by apply RemoveOldest_nil|].
  intros k v. split; [by apply Add_nil|].
  destruct (wf_nil st' Hwf' Hc) as [_ Hents].
  assert (Hnew : k ∉ key <$> entries st').
  { rewrite Hents. intros Hin. by apply elem_of_nil in Hin. }
  destruct (Add_new st' k v Hwf' Hnew) as (st'' & HAdd & Hwf'' & Hcfg & Hres).
  exists st''. split; [done|]. intros HC.
  unfold over_limit in Hres. rewrite Hents, HM', HM in Hres.
  unfold len in Hres. simpl in Hres.
  assert (Hunder : negb (C =? 0) && (C <? Z.of_nat 1) = false).
  { destruct (Z.eqb_spec C 0); [done|]. simpl. apply Z.ltb_ge. lia. }
  rewrite Hunder in Hres. destruct Hres as [Hents'' _].
  split; [done|]. split.
  - rewrite (Len_size st'' Hwf''), <- (size_entries st'' Hwf''), Hents''. done.
  - destruct (Get_spec st'' k Hwf'') as (st3 & r & HGet & _ & _ & _ & _ & _ & Hhit & _).
    destruct Hhit as (v' & -> & Hin).
    { rewrite Hents''. simpl. by left. }
    rewrite Hents'' in Hin. apply list_elem_of_singleton in Hin.
    injection Hin as ->. by exists st3.
Qed.

End cache_facts.

Lemma Len_at_most_MaxEntries_witness :
  0 < 2 ∧
  ∃ (st : State string Z (list string)) (n : Z),
    run (init 2 (Some onEvictedFunc) []) sample_ops = Ok st ∧ Len st = Ok n ∧ 0 ≤ n ≤ 2 ∧
    ∀ k v, k ∉ key <$> entries st → n = 2 →
      ∃ st' ents ent,
        Add st k v = Ok st' ∧ entries st = ents ++ [ent] ∧
        entries st' = mkEntry k v :: ents ∧
        env st' = apply_hook (Some onEvictedFunc) (env st) ent ∧ Len st' = Ok 2.
Proof.
  assert (H1 : 0 < 2) by lia.
  split; [exact H1|].
  exact (Len_at_most_MaxEntries 2 (Some onEvictedFunc) [] sample_ops H1).
Defined.

(** The history [sample_ops] by evaluation: five entries were evicted or
    removed, and two are left. *)
Example sample_ops_run :
  (st ← run (init 2 (Some onEvictedFunc) []) sample_ops;
   n ← Len st; Ok (n, key <$> entries st, env st))
  = Ok (2, ["f"; "e"], ["b"; "a"; "c"; "d"])%string.
Proof. vm_compute. reflexivity. Qed.

Section eviction_order.
Context {Key Val : Type} `{Countable Key}.

Lemma fold_onEvictedFunc (es : list (entry Key Val)) (acc : list Key) :
  fold_left (apply_hook (Some onEvictedFunc)) es acc = acc ++ (key <$> es).
Proof.
  revert acc. induction es as [|ent es IH]; intros acc; simpl.
  - by rewrite app_nil_r.
  - rewrite IH. unfold onEvictedFunc. by rewrite <- app_assoc.
Qed.

(** C2.  Capacity [C > 0]; [N > C] distinct keys are added, in order, to a
    new cache whose callback records the key it is given.  All [N] calls
    return, and the record is exactly the first [N - C] keys, in the order
    of insertion: the callback fired [N - C] times. *)
Theorem evicts_in_insertion_order (C : Z) (kvs : list (Key * Val)) :
  0 < C → C < len kvs → NoDup kvs.*1 →
  ∃ st, add_all (init C (Some onEvictedFunc) []) kvs = Ok st ∧
        env st = take (Z.to_nat (len kvs - C)) kvs.*1 ∧
        len (env st) = len kvs - C.
Proof.
  intros HC HN Hnd.
  destruct (add_all_distinct C (Some onEvictedFunc) [] kvs HC Hnd)
    as (st & Hrun & _ & _ & _ & _ & Henv).
  exists st. split; [done|].
  assert (Hd : (length kvs - Z.to_nat C)%nat = Z.to_nat (len kvs - C)) by (unfold len; lia).
  rewrite Hd in Henv.
  assert (Henv' : env st = take (Z.to_nat (len kvs - C)) kvs.*1).
  { rewrite Henv, fold_onEvictedFunc. simpl.
    rewrite <- !fmap_take, <- list_fmap_compose. done. }
  split; [done|].
  rewrite Henv'. unfold len in *. rewrite length_take, length_fmap. lia.
Qed.

End eviction_order.

Lemma evicts_in_insertion_order_witness :
  0 < 20 ∧ 20 < len test_inserts ∧ NoDup test_inserts.*1 ∧
  ∃ st, add_all (init 20 (Some onEvictedFunc) []) test_inserts = Ok st ∧
        env st = take (Z.to_nat (len test_inserts - 20)) test_inserts.*1 ∧
        len (env st) = len test_inserts - 20.
Proof.
  assert (H1 : 0 < 20) by lia.
  assert (H2 : 20 < len test_inserts) by (vm_compute; reflexivity).
  assert (H3 : NoDup test_inserts.*1).
  { apply (bool_decide_unpack _). vm_compute. reflexivity. }
  split; [exact H1|]. split; [exact H2|]. split; [exact H3|].
  exact (evicts_in_insertion_order 20 test_inserts H1 H2 H3).
Defined.

(** *** Further properties of the cache: what each call does to the entries *)

Section cache_entries.
Context {Key Val W : Type} `{Countable Key}.
Implicit Types (st : State Key Val W) (l : list Element) (c : gmap Key Element).
Implicit Types (ent : entry Key Val).

Lemma entry_eta ent : mkEntry (key ent) (value ent) = ent.
Proof. by destruct ent. Qed.

Lemma omap_insert_notin (cs : gmap Element (entry Key Val)) elem ent l :
  elem ∉ l → omap (λ e, <[elem := ent]> cs !! e) l = omap (λ e, cs !! e) l.
Proof.
  induction l as [|e l IH]; intros Hnot; simpl; [done|].
  rewrite lookup_insert_ne by (intros ->; apply Hnot; by left).
  assert (Hl : elem ∉ l) by (intros Hin; apply Hnot; by right).
  specialize (IH Hl). destruct (cs !! e); [f_equal|]; exact IH.
Qed.

(** The place of a cached key in the list, and the list without it. *)
Lemma hit_split st l c k elem :
  dll (lru st) = Some l → cache (lru st) = Some c → wf st → c !! k = Some elem →
  ∃ l1 l2 v,
    l = l1 ++ elem :: l2 ∧ (elem ∉ l1 ++ l2) ∧ elem ∈ l ∧
    cells st !! elem = Some (mkEntry k v) ∧
    entries st = omap (λ e, cells st !! e) l1 ++ mkEntry k v :: omap (λ e, cells st !! e) l2 ∧
    Remove_elem l elem = l1 ++ l2 ∧
    MoveToFront l elem = elem :: l1 ++ l2.
Proof.
  intros Hl Hc Hwf Hk.
  destruct (hit_cell st l c k elem Hl Hc Hwf Hk) as (Hin & Hnd & ent & Hent & Hkey).
  destruct (list_elem_of_split _ _ Hin) as (l1 & l2 & ->).
  exists l1, l2, (value ent). rewrite <- Hkey, entry_eta.
  pose proof (Remove_elem_middle l1 l2 elem Hnd) as Hrm.
  split; [done|]. split.
  { apply NoDup_app in Hnd as (_ & Hdisj & [Hn2 _]%NoDup_cons).
    intros [Hin1|Hin2]%elem_of_app; [|done]. apply (Hdisj elem Hin1). by left. }
  split; [done|]. split; [done|]. split.
  { unfold entries. rewrite Hl. simpl. rewrite omap_app. simpl. by rewrite Hent. }
  split; [done|]. unfold MoveToFront. rewrite decide_True by done. by rewrite Hrm.
Qed.

Lemma wf_keys_NoDup st : wf st → NoDup (key <$> entries st).
Proof.
  intros Hwf. destruct (cache (lru st)) as [c|] eqn:Hc; cycle 1.
  { destruct (wf_nil st Hwf Hc) as [_ ->]. constructor. }
  destruct (wf_Some st c Hwf Hc) as [l Hl].
  pose proof (wf_entries st l c Hl Hc Hwf) as HF.
  unfold wf in Hwf. rewrite Hl, Hc in Hwf. destruct Hwf as (Hnd & _ & Hmap).
  assert (Hinj : ∀ e1 e2 ent1 ent2, e1 ∈ l → e2 ∈ l →
    cells st !! e1 = Some ent1 → cells st !! e2 = Some ent2 →
    key ent1 = key ent2 → e1 = e2).
  { intros e1 e2 ent1 ent2 H1 H2 Hc1 Hc2 Hkey.
    assert (c !! key ent1 = Some e1) as Hk1 by (apply Hmap; by rewrite Hc1).
    assert (c !! key ent1 = Some e2) as Hk2 by (apply Hmap; rewrite Hc2, Hkey; done).
    congruence. }
  clear Hmap Hl Hc. remember (entries st) as ents eqn:Heq. clear Heq. revert Hnd Hinj.
  induction HF as [|e ent l' ents' Hcell HF IH]; intros Hnd Hinj; simpl; [constructor|].
  apply NoDup_cons in Hnd as [Hnot Hnd]. constructor.
  - intros (ent2 & Hkey & [i Hi]%list_elem_of_lookup)%list_elem_of_fmap.
    destruct (Forall2_lookup_r _ _ _ _ _ HF Hi) as (e2 & He2 & Hcell2).
    apply list_elem_of_lookup_2 in He2.
    assert (e = e2) as -> by (eapply Hinj; [by left|by right|done..]).
    done.
  - apply IH; [done|]. intros e1 e2 ent1 ent2 H1 H2. apply Hinj; by right.
Qed.

Lemma Get_entries st k :
  wf st →
  ∃ st' r, Get st k = Ok (st', r) ∧ env st' = env st ∧
    (((k ∉ key <$> entries st) ∧ r = None ∧ st' = st) ∨
     (∃ E1 E2 v, entries st = E1 ++ mkEntry k v :: E2 ∧ r = Some v ∧
                 entries st' = mkEntry k v :: E1 ++ E2)).
Proof.
  intros Hwf. unfold Get. destruct (cache (lru st)) as [c|] eqn:Hc; cycle 1.
  { destruct (wf_nil st Hwf Hc) as [_ Hents].
    exists st, None. split; [done|]. split; [done|]. left. rewrite Hents.
    split; [|done]. intros Hin. by apply elem_of_nil in Hin. }
  destruct (wf_Some st c Hwf Hc) as [l Hl].
  pose proof (cached_key st l c k Hl Hc Hwf) as Hcached.
  destruct (c !! k) as [elem|] eqn:Hk; cycle 1.
  { exists st, None. split; [done|]. split; [done|]. left. split; [|done].
    intros [? [=]]%Hcached. }
  destruct (hit_split st l c k elem Hl Hc Hwf Hk)
    as (l1 & l2 & v & Hsplit & Hnot & Hin & Hcell & Hents & Hrm & Hmv).
  rewrite Hl. simpl. rewrite Hcell. simpl.
  eexists _, _. split; [done|]. split; [done|]. right.
  eexists _, _, v. split; [exact Hents|]. split; [done|].
  unfold entries. simpl. rewrite Hmv. simpl. rewrite Hcell. by rewrite omap_app.
Qed.

Lemma Add_hit_entries st k v :
  wf st → k ∈ key <$> entries st →
  ∃ st' E1 E2 v0, Add st k v = Ok st' ∧ wf st' ∧ same_config st st' ∧
    entries st = E1 ++ mkEntry k v0 :: E2 ∧
    entries st' = mkEntry k v :: E1 ++ E2 ∧ env st' = env st.
Proof.
  intros Hwf Hin. destruct (cache (lru st)) as [c|] eqn:Hc; cycle 1.
  { destruct (wf_nil st Hwf Hc) as [_ Hents]. rewrite Hents in Hin.
    by apply elem_of_nil in Hin. }
  destruct (wf_Some st c Hwf Hc) as [l Hl].
  destruct (proj2 (cached_key st l c k Hl Hc Hwf) Hin) as [elem Hk].
  destruct (hit_split st l c k elem Hl Hc Hwf Hk)
    as (l1 & l2 & v0 & Hsplit & Hnot & Hinl & Hcell & Hents & Hrm & Hmv).
  destruct (Add_hit st l c k v elem Hl Hc Hwf Hk) as (st' & HAdd & Hwf' & Hcfg & _ & Henv).
  exists st', (omap (λ e, cells st !! e) l1), (omap (λ e, cells st !! e) l2), v0.
  split; [done|]. split; [done|]. split; [done|]. split; [done|]. split; [|done].
  assert (Hst' : st' = set_cell (set_dll st (Some (MoveToFront l elem))) elem (mkEntry k v)).
  { assert (Ok st' = Ok (set_cell (set_dll st (Some (MoveToFront l elem))) elem (mkEntry k v)))
      as Heq; [|by injection Heq].
    rewrite <- HAdd. destruct st as [[M h d c0] cs w]. simpl in *. subst d c0.
    unfold Add. simpl. rewrite Hk. simpl. rewrite Hcell. reflexivity. }
  rewrite Hst'. unfold entries. simpl. rewrite Hmv. simpl.
  rewrite lookup_insert_eq. simpl. f_equal.
  rewrite omap_insert_notin by done. by rewrite omap_app.
Qed.

Lemma Remove_entries st k :
  wf st →
  ∃ st', Remove st k = Ok st' ∧
    (((k ∉ key <$> entries st) ∧ st' = st) ∨
     (∃ E1 E2 v, entries st = E1 ++ mkEntry k v :: E2 ∧ entries st' = E1 ++ E2 ∧
                 env st' = apply_hook (OnEvicted (lru st)) (env st) (mkEntry k v))).
Proof.
  intros Hwf. unfold Remove. destruct (cache (lru st)) as [c|] eqn:Hc; cycle 1.
  { destruct (wf_nil st Hwf Hc) as [_ Hents].
    exists st. split; [done|]. left. rewrite Hents.
    split; [|done]. intros Hin. by apply elem_of_nil in Hin. }
  destruct (wf_Some st c Hwf Hc) as [l Hl].
  pose proof (cached_key st l c k Hl Hc Hwf) as Hcached.
  destruct (c !! k) as [elem|] eqn:Hk; cycle 1.
  { exists st. split; [done|]. left. split; [|done]. intros [? [=]]%Hcached. }
  destruct (hit_split st l c k elem Hl Hc Hwf Hk)
    as (l1 & l2 & v & Hsplit & Hnot & Hin & Hcell & Hents & Hrm & Hmv).
  destruct (removeElement_spec st l c elem Hl Hc Hwf Hin) as
    (st' & ent & Hrem & Hent & Hl' & _ & _ & _ & Hcells' & Henv' & _).
  assert (ent = mkEntry k v) as -> by congruence.
  exists st'. split; [done|]. right. eexists _, _, v. split; [exact Hents|].
  split; [|done]. unfold entries. rewrite Hl', Hcells', Hrm. simpl. by rewrite omap_app.
Qed.

Lemma RemoveOldest_cases st :
  wf st →
  ∃ st', RemoveOldest st = Ok st' ∧
    ((entries st = [] ∧ st' = st) ∨
     (∃ ents ent, entries st = ents ++ [ent] ∧ entries st' = ents ∧
                  env st' = apply_hook (OnEvicted (lru st)) (env st) ent)).
Proof.
  intros Hwf. destruct (cache (lru st)) as [c|] eqn:Hc; cycle 1.
  { destruct (wf_nil st Hwf Hc) as [_ Hents].
    exists st. split; [by apply RemoveOldest_nil|]. by left. }
  destruct (entries st) as [|ent0 ents0] eqn:Hents.
  { destruct (wf_Some st c Hwf Hc) as [l Hl].
    pose proof (size_entries st Hwf) as Hsize. rewrite Hents in Hsize.
    unfold dll_len in Hsize. rewrite Hl in Hsize. simpl in Hsize.
    destruct l; [|done]. exists st. split; [by eapply RemoveOldest_empty|]. by left. }
  destruct (snoc_cases ent0 ents0) as (ents & ent & Hsnoc). rewrite Hsnoc in Hents.
  destruct (RemoveOldest_entries st c ents ent Hc Hwf Hents) as (st' & Hrm & _ & _ & He & Henv).
  exists st'. split; [done|]. right. exists ents, ent. by rewrite Hsnoc.
Qed.

Lemma entries_cleared st :
  dll (lru st) = None → entries st = [].
Proof. unfold entries. by intros ->. Qed.

Lemma fold_apply_hook_None (es : list (entry Key Val)) (w : W) :
  fold_left (apply_hook None) es w = w.
Proof. revert w. induction es as [|ent es IH]; intros w; simpl; [done|apply IH]. Qed.

Lemma Clear_loop_env st (es : list Element) :
  (∀ e, e ∈ es → is_Some (cells st !! e)) →
  ∃ st', foldM (fun st elem => ent ← deref (cells st !! elem); Ok (fire st ent)) es st = Ok st' ∧
         lru st' = lru st ∧ cells st' = cells st ∧
         env st' = fold_left (apply_hook (OnEvicted (lru st)))
                             (omap (λ e, cells st !! e) es) (env st).
Proof.
  revert st. induction es as [|e es IH]; intros st Hall; simpl.
  - by exists st.
  - destruct (Hall e) as [ent Hent]; [by left|]. rewrite Hent. simpl.
    destruct (fire_fields st ent) as (Hlru & Hcs & Henv).
    destruct (IH (fire st ent)) as (st' & Hrun & Hlru' & Hcs' & Henv').
    { intros e' He'. rewrite Hcs. apply Hall. by right. }
    exists st'. split; [done|]. split; [congruence|]. split; [congruence|].
    rewrite Henv', Hlru, Hcs, Henv. done.
Qed.

Lemma map_elems_Permutation st l c :
  dll (lru st) = Some l → cache (lru st) = Some c → wf st → (map_to_list c).*2 ≡ₚ l.
Proof.
  intros Hl Hc Hwf. unfold wf in Hwf. rewrite Hl, Hc in Hwf.
  destruct Hwf as (Hnd & Hcells & Hmap).
  apply NoDup_Permutation; [|done|].
  - apply NoDup_fmap_2_strong; [|apply NoDup_map_to_list].
    intros [k1 e1] [k2 e2] H1%elem_of_map_to_list H2%elem_of_map_to_list Heq.
    simpl in Heq. subst e2. apply Hmap in H1 as [_ H1]. apply Hmap in H2 as [_ H2].
    f_equal. congruence.
  - intros e. rewrite list_elem_of_fmap. split.
    + intros ([k e'] & -> & Hin%elem_of_map_to_list). simpl. by apply Hmap in Hin as [? _].
    + intros Hin. destruct (Hcells e Hin) as [ent Hent].
      exists (key ent, e). split; [done|]. apply elem_of_map_to_list, Hmap.
      split; [done|]. by rewrite Hent.
Qed.

Lemma Clear_entries st :
  wf st →
  ∃ st' evicted, Clear st = Ok st' ∧ evicted ≡ₚ entries st ∧
    env st' = fold_left (apply_hook (OnEvicted (lru st))) evicted (env st) ∧
    entries st' = [].
Proof.
  intros Hwf. unfold Clear. destruct (OnEvicted (lru st)) as [f|] eqn:Hf; cycle 1.
  { simpl. eexists _, (entries st). split; [done|]. split; [done|].
    split; [by rewrite fold_apply_hook_None|done]. }
  destruct (cache (lru st)) as [c|] eqn:Hc; cycle 1.
  { destruct (wf_nil st Hwf Hc) as [_ Hents]. simpl.
    eexists _, []. split; [done|]. by rewrite Hents. }
  destruct (wf_Some st c Hwf Hc) as [l Hl].
  pose proof (map_elems_Permutation st l c Hl Hc Hwf) as Hperm.
  destruct (Clear_loop_env st (map_to_list c).*2) as (st1 & Hloop & Hlru & Hcs & Henv).
  { intros e He. rewrite Hperm in He. unfold wf in Hwf. rewrite Hl, Hc in Hwf.
    by apply Hwf. }
  rewrite Hloop. simpl.
  eexists _, (omap (λ e, cells st !! e) (map_to_list c).*2). split; [done|]. split.
  { unfold entries. rewrite Hl. simpl. by apply omap_Permutation. }
  split; [|done]. simpl. by rewrite Henv, Hf.
Qed.

Lemma Add_front st k v :
  wf st → 0 ≤ MaxEntries (lru st) →
  ∃ st' rest, Add st k v = Ok st' ∧ wf st' ∧ entries st' = mkEntry k v :: rest.
Proof.
  intros Hwf HC. destruct (decide (k ∈ key <$> entries st)) as [Hin|Hnew].
  - destruct (Add_hit_entries st k v Hwf Hin) as (st' & E1 & E2 & v0 & HAdd & Hwf' & _ & _ & He & _).
    by exists st', (E1 ++ E2).
  - destruct (Add_new st k v Hwf Hnew) as (st' & HAdd & Hwf' & _ & Hres).
    destruct (over_limit st (len (mkEntry k v :: entries st))) eqn:Hover.
    + destruct Hres as (ents & ent & Hsnoc & He & _).
      unfold over_limit, len in Hover. simpl in Hover.
      apply andb_true_iff in Hover as [Hne Hlt].
      apply negb_true_iff, Z.eqb_neq in Hne. apply Z.ltb_lt in Hlt.
      destruct ents as [|ent1 ents].
      { apply (f_equal length) in Hsnoc. simpl in Hsnoc. lia. }
      injection Hsnoc as <- _. exists st', ents. by rewrite He.
    + destruct Hres as [He _]. by exists st', (entries st).
Qed.

Lemma Get_front st k v rest :
  wf st → entries st = mkEntry k v :: rest →
  ∃ st', Get st k = Ok (st', Some v) ∧ entries st' = entries st.
Proof.
  intros Hwf Hents. pose proof (wf_keys_NoDup st Hwf) as Hnd.
  destruct (Get_entries st k Hwf) as (st' & r & HGet & _ & [(Hnot & _)|Hhit]).
  { exfalso. apply Hnot. rewrite Hents. simpl. by left. }
  destruct Hhit as (E1 & E2 & v' & HE & -> & He').
  rewrite Hents in HE, Hnd. destruct E1 as [|ent1 E1]; simpl in HE.
  - injection HE as -> ->. exists st'. split; [done|]. by rewrite He', Hents.
  - injection HE as <- ->. simpl in Hnd. apply NoDup_cons in Hnd as [Hnot _].
    exfalso. apply Hnot. rewrite fmap_app. apply elem_of_app. right. simpl. by left.
Qed.

Lemma negative_step st (o : op) :
  wf st → MaxEntries (lru st) < 0 → entries st = [] →
  ∃ st', step st o = Ok st' ∧ wf st' ∧ same_config st st' ∧ entries st' = [].
Proof.
  intros Hwf HC Hents.
  assert (Hsmall : ∀ st', wf st' → (dll_len st' ≤ dll_len st)%nat → entries st' = []).
  { intros st' Hwf' Hle. rewrite <- (size_entries st Hwf), Hents in Hle.
    rewrite <- (size_entries st' Hwf') in Hle. simpl in Hle.
    destruct (entries st'); [done|simpl in Hle; lia]. }
  destruct o as [k v|k|k| |]; simpl.
  - destruct (Add_new st k v Hwf) as (st' & HAdd & Hwf' & Hcfg & Hres).
    { rewrite Hents. intros Hin. by apply elem_of_nil in Hin. }
    exists st'. split; [done|]. split; [done|]. split; [done|].
    rewrite Hents in Hres. unfold over_limit, len in Hres. simpl in Hres.
    destruct (Z.eqb_spec (MaxEntries (lru st)) 0); [lia|].
    destruct (Z.ltb_spec (MaxEntries (lru st)) (Z.of_nat 1)); [|lia]. simpl in Hres.
    destruct Hres as (ents & ent & Hsnoc & -> & _).
    destruct ents as [|? ents]; [done|]. apply (f_equal length) in Hsnoc.
    simpl in Hsnoc. rewrite length_app in Hsnoc. simpl in Hsnoc. lia.
  - destruct (Get_spec st k Hwf) as (st' & r & -> & Hwf' & Hcfg & Hsize & _).
    exists st'. simpl. split; [done|]. split; [done|]. split; [done|].
    apply Hsmall; [done|lia].
  - destruct (Remove_spec st k Hwf) as (st' & -> & Hwf' & Hcfg & Hsize).
    exists st'. split; [done|]. split; [done|]. split; [done|]. by apply Hsmall.
  - destruct (RemoveOldest_spec st Hwf) as (st' & -> & Hwf' & Hcfg & Hsize).
    exists st'. split; [done|]. split; [done|]. split; [done|]. by apply Hsmall.
  - destruct (Clear_spec st Hwf) as (st' & -> & Hwf' & Hcfg & Hl & _).
    exists st'. split; [done|]. split; [done|]. split; [done|]. by apply entries_cleared.
Qed.

Lemma negative_run C h (w0 : W) (ops : list op) :
  C < 0 →
  ∃ st : State Key Val W,
    run (init C h w0) ops = Ok st ∧ wf st ∧
    MaxEntries (lru st) = C ∧ OnEvicted (lru st) = h ∧ entries st = [].
Proof.
  intros HC. induction ops as [|o ops IH] using rev_ind.
  - exists (init C h w0). split; [done|]. split; [apply init_wf|]. done.
  - destruct IH as (st & Hrun & Hwf & HM & Hh & Hents).
    destruct (negative_step st o Hwf) as (st' & Hstep & Hwf' & [HM' Hh'] & Hents');
      [lia|done|].
    exists st'. unfold run. rewrite foldM_app. fold (run (init C h w0) ops).
    rewrite Hrun. simpl. rewrite Hstep. split; [done|]. split; [done|].
    split; [congruence|]. split; [congruence|]. done.
Qed.

(** X15.  After any history, no key is cached twice, and [Len] is the number of
    entries. *)
Theorem keys_distinct (C : Z) (h : option (Key → Val → W → W)) (w0 : W) (ops : list op) :
  ∃ st : State Key Val W,
    run (init C h w0) ops = Ok st ∧
    NoDup (key <$> entries st) ∧ Len st = Ok (len (entries st)).
Proof.
  destruct (run_spec C h w0 ops) as (st & Hrun & Hwf & _).
  exists st. split; [done|]. split; [by apply wf_keys_NoDup|].
  rewrite (Len_size st Hwf). unfold len. by rewrite (size_entries st Hwf).
Qed.

(** X16.  After any history, [Get] never calls the callback.  For a key that is
    not cached it returns nothing and changes nothing; for a cached key it
    returns the value and moves the entry to the front, leaving the other
    entries in their order. *)
Theorem Get_moves_to_front (C : Z) (h : option (Key → Val → W → W)) (w0 : W)
    (ops : list op) :
  ∃ st : State Key Val W,
    run (init C h w0) ops = Ok st ∧
    ∀ k, ∃ st' r, Get st k = Ok (st', r) ∧ env st' = env st ∧
      (((k ∉ key <$> entries st) ∧ r = None ∧ st' = st) ∨
       (∃ E1 E2 v, entries st = E1 ++ mkEntry k v :: E2 ∧ r = Some v ∧
                   entries st' = mkEntry k v :: E1 ++ E2)).
Proof.
  destruct (run_spec C h w0 ops) as (st & Hrun & Hwf & _).
  exists st. split; [done|]. intros k. by apply Get_entries.
Qed.

(** X17.  After any history, [Add] of a key that is cached replaces its value and
    moves the entry to the front; the other entries keep their order, none is
    evicted and the callback is not called. *)
Theorem Add_existing_key (C : Z) (h : option (Key → Val → W → W)) (w0 : W)
    (ops : list op) :
  ∃ st : State Key Val W,
    run (init C h w0) ops = Ok st ∧
    ∀ k v, k ∈ key <$> entries st →
      ∃ st' E1 E2 v0, Add st k v = Ok st' ∧
        entries st = E1 ++ mkEntry k v0 :: E2 ∧
        entries st' = mkEntry k v :: E1 ++ E2 ∧ env st' = env st.
Proof.
  destruct (run_spec C h w0 ops) as (st & Hrun & Hwf & _).
  exists st. split; [done|]. intros k v Hin.
  destruct (Add_hit_entries st k v Hwf Hin) as (st' & E1 & E2 & v0 & HAdd & _ & _ & HE & HE' & Henv).
  by exists st', E1, E2, v0.
Qed.

(** X18.  After any history, [Add] of a key that is not cached, to a cache without
    limit ([MaxEntries = 0]) or with fewer entries than the limit, puts the
    entry at the front, evicts nothing and does not call the callback. *)
Theorem Add_below_limit (C : Z) (h : option (Key → Val → W → W)) (w0 : W)
    (ops : list op) :
  ∃ st : State Key Val W,
    run (init C h w0) ops = Ok st ∧
    ∀ k v, k ∉ key <$> entries st → C = 0 ∨ len (entries st) < C →
      ∃ st', Add st k v = Ok st' ∧
        entries st' = mkEntry k v :: entries st ∧ env st' = env st.
Proof.
  destruct (run_spec C h w0 ops) as (st & Hrun & Hwf & HM & _).
  exists st. split; [done|]. intros k v Hnew Hroom.
  destruct (Add_new st k v Hwf Hnew) as (st' & HAdd & _ & _ & Hres).
  exists st'. split; [done|].
  unfold over_limit in Hres. rewrite HM in Hres. unfold len in *. simpl in Hres.
  destruct (Z.eqb_spec C 0) as [HC|HC]; simpl in Hres; [done|].
  destruct (Z.ltb_spec C (Z.of_nat (S (length (entries st))))); [lia|done].
Qed.

(** X19.  After any history, [Remove] of a key that is not cached changes
    nothing; for a cached key it removes exactly that entry, leaving the
    others in their order, and calls the callback once, with that entry. *)
Theorem Remove_removes_one (C : Z) (h : option (Key → Val → W → W)) (w0 : W)
    (ops : list op) :
  ∃ st : State Key Val W,
    run (init C h w0) ops = Ok st ∧
    ∀ k, ∃ st', Remove st k = Ok st' ∧
      (((k ∉ key <$> entries st) ∧ st' = st) ∨
       (∃ E1 E2 v, entries st = E1 ++ mkEntry k v :: E2 ∧ entries st' = E1 ++ E2 ∧
                   env st' = apply_hook h (env st) (mkEntry k v))).
Proof.
  destruct (run_spec C h w0 ops) as (st & Hrun & Hwf & _ & Hh & _).
  exists st. split; [done|]. intros k. rewrite <- Hh. by apply Remove_entries.
Qed.

(** X20.  After any history, [RemoveOldest] on an empty cache changes nothing;
    otherwise it removes the entry at the back, the least recently used one,
    and calls the callback once, with that entry. *)
Theorem RemoveOldest_removes_back (C : Z) (h : option (Key → Val → W → W)) (w0 : W)
    (ops : list op) :
  ∃ st st' : State Key Val W,
    run (init C h w0) ops = Ok st ∧ RemoveOldest st = Ok st' ∧
    ((entries st = [] ∧ st' = st) ∨
     (∃ ents ent, entries st = ents ++ [ent] ∧ entries st' = ents ∧
                  env st' = apply_hook h (env st) ent)).
Proof.
  destruct (run_spec C h w0 ops) as (st & Hrun & Hwf & _ & Hh & _).
  destruct (RemoveOldest_cases st Hwf) as (st' & Hrm & Hcases).
  exists st, st'. split; [done|]. split; [done|]. by rewrite <- Hh.
Qed.

(** X21.  After any history, [Clear] calls the callback exactly once for every
    entry of the cache, in some order, and leaves the cache empty. *)
Theorem Clear_fires_for_every_entry (C : Z) (h : option (Key → Val → W → W)) (w0 : W)
    (ops : list op) :
  ∃ (st st' : State Key Val W) (evicted : list (entry Key Val)),
    run (init C h w0) ops = Ok st ∧ Clear st = Ok st' ∧
    evicted ≡ₚ entries st ∧
    env st' = fold_left (apply_hook h) evicted (env st) ∧
    entries st' = [].
Proof.
  destruct (run_spec C h w0 ops) as (st & Hrun & Hwf & _ & Hh & _).
  destruct (Clear_entries st Hwf) as (st' & evicted & HClear & Hperm & Henv & He).
  rewrite Hh in Henv. by exists st, st', evicted.
Qed.

(** X22.  With a limit that is not negative, after any history: a key that was
    just added is found by [Get], with the value added. *)
Theorem Get_after_Add (C : Z) (h : option (Key → Val → W → W)) (w0 : W)
    (ops : list op) (k : Key) (v : Val) :
  0 ≤ C →
  ∃ st st' st'' : State Key Val W,
    run (init C h w0) ops = Ok st ∧ Add st k v = Ok st' ∧
    Get st' k = Ok (st'', Some v).
Proof.
  intros HC. destruct (run_spec C h w0 ops) as (st & Hrun & Hwf & HM & _).
  destruct (Add_front st k v Hwf) as (st' & rest & HAdd & Hwf' & He); [lia|].
  destruct (Get_front st' k v rest Hwf' He) as (st'' & HGet & _).
  by exists st, st', st''.
Qed.

(** X23.  With a negative limit the cache never holds anything: after any history
    it is empty, and [Add] hands the entry it was given straight to the
    callback. *)
Theorem negative_limit_keeps_nothing (C : Z) (h : option (Key → Val → W → W)) (w0 : W)
    (ops : list op) :
  C < 0 →
  ∃ st : State Key Val W,
    run (init C h w0) ops = Ok st ∧ entries st = [] ∧
    ∀ k v, ∃ st', Add st k v = Ok st' ∧ entries st' = [] ∧
                  env st' = apply_hook h (env st) (mkEntry k v).
Proof.
  intros HC. destruct (negative_run C h w0 ops HC) as (st & Hrun & Hwf & HM & Hh & Hents).
  exists st. split; [done|]. split; [done|]. intros k v.
  destruct (Add_new st k v Hwf) as (st' & HAdd & _ & _ & Hres).
  { rewrite Hents. intros Hin. by apply elem_of_nil in Hin. }
  exists st'. split; [done|].
  rewrite Hents in Hres. unfold over_limit, len in Hres. simpl in Hres. rewrite HM in Hres.
  destruct (Z.eqb_spec C 0); [lia|].
  destruct (Z.ltb_spec C (Z.of_nat 1)); [|lia]. simpl in Hres.
  destruct Hres as (ents & ent & Hsnoc & -> & Henv).
  destruct ents as [|? ents].
  - simpl in Hsnoc. injection Hsnoc as <-. by rewrite <- Hh.
  - apply (f_equal length) in Hsnoc. simpl in Hsnoc. rewrite length_app in Hsnoc.
    simpl in Hsnoc. lia.
Qed.

End cache_entries.

Lemma Get_after_Add_witness :
  0 ≤ 2 ∧
  ∃ st st' st'' : State string Z (list string),
    run (init 2 (Some onEvictedFunc) []) sample_ops = Ok st ∧
    Add st "g"%string 7 = Ok st' ∧ Get st' "g"%string = Ok (st'', Some 7).
Proof.
  assert (H1 : 0 ≤ 2) by lia.
  split; [exact H1|].
  exact (Get_after_Add 2 (Some onEvictedFunc) [] sample_ops "g"%string 7 H1).
Defined.

Lemma negative_limit_keeps_nothing_witness :
  -1 < 0 ∧
  ∃ st : State string Z (list string),
    run (init (-1) (Some onEvictedFunc) []) sample_ops = Ok st ∧ entries st = [] ∧
    ∀ k v, ∃ st', Add st k v = Ok st' ∧ entries st' = [] ∧
                  env st' = apply_hook (Some onEvictedFunc) (env st) (mkEntry k v).
Proof.
  assert (H1 : -1 < 0) by lia.
  split; [exact H1|].
  exact (negative_limit_keeps_nothing (-1) (Some onEvictedFunc) [] sample_ops H1).
Defined.

End lru_facts.

Module peers_facts.
Import peers.

Section registration.
Context {ProtoGetter : Type}.
Implicit Types (rs : list (@registration ProtoGetter)) (r : @registration ProtoGetter).

Lemma register_set (f : string → outcome (@PeerPicker ProtoGetter)) rs :
  (∃ g, lru.foldM register rs (Some f) = Ok g) → rs = [].
Proof. destruct rs as [|[fn|fn] rs]; [done|..]; simpl; by intros [g Hg]. Qed.

Lemma register_nil_run (n : nat) rs :
  lru.foldM register (replicate n (reg_PerGroupPeerPicker None) ++ rs) None
  = lru.foldM (@register ProtoGetter) rs None.
Proof. induction n as [|n IH]; simpl; [done|exact IH]. Qed.

(** X24.  A sequence of registrations, by either function, runs without panic
    exactly when all calls but the last are [RegisterPerGroupPeerPicker(nil)]:
    once a picker is set, every further registration panics, and a nil
    per-group function leaves no trace. *)
Theorem register_at_most_once rs :
  (∃ g, register_all rs = Ok g) ↔
  ∃ n, rs = replicate n (reg_PerGroupPeerPicker None) ∨
       ∃ r, rs = replicate n (reg_PerGroupPeerPicker None) ++ [r].
Proof.
  unfold register_all. split.
  - induction rs as [|r rs IH]; intros [g Hg].
    { exists 0%nat. by left. }
    simpl in Hg. destruct r as [fn|[f|]]; simpl in Hg.
    + rewrite (register_set _ rs) by by exists g.
      exists 0%nat. right. by eexists.
    + rewrite (register_set _ rs) by by exists g.
      exists 0%nat. right. by eexists.
    + destruct IH as (n & [->|[r ->]]); [by exists g|..].
      * exists (S n). by left.
      * exists (S n). right. by exists r.
  - intros (n & [->|[r ->]]).
    + rewrite <- (app_nil_r (replicate n _)), register_nil_run. by eexists.
    + rewrite register_nil_run. destruct r as [fn|fn]; simpl; by eexists.
Qed.

End registration.

End peers_facts.
